(** * Ontology extractor of the Z-Anatomy scripts

    A shallow embedding of [scripts/extract-z-anatomy-ontology.py]:
    [normalize_part_id], [determine_system] and the traversal of
    [extract_ontology], followed by the properties of the specification
    that concern them.  Of the other scripts, whose work is done by the
    host's operators, only the data they compute themselves is embedded:
    the path tables of [scripts/export-z-anatomy-main-systems.py] and the
    grouping by type of [scripts/inspect-blender.py].

    Strings.  A Python [str] is a sequence of Unicode code points.  The
    traversal and the fixed inputs are embedded over Rocq's [string],
    whose characters are the 256 code points below U+0100 (Latin-1); on
    this range [str.lower] and the classes [\w] and [\s] of the [re]
    module are the finite tables written out below, and every literal of
    the script lies in it.  [normalize_part_id] and [determine_system] are
    embedded a second time in the module [Unicode], over lists of
    arbitrary code points, with the tables of the Unicode database as
    parameters; the statements about every name are made there, and the
    two embeddings are proved to agree below U+0100.

    Effects.  The console output and the two files written at the end are
    not modelled: [extract_ontology] returns the list that the script
    serialises.  The one operation of the traversal that can raise, the
    lookup of a collection by name, returns in a sum type. *)

From Stdlib Require Import Ascii NArith ZArith Bool.
From stdpp Require Import base list gmap strings.

Local Open Scope N_scope.

(** ** Characters *)

Module Char.

Definition code (c : ascii) : N := N_of_ascii c.

Definition between (lo hi : N) (c : ascii) : bool :=
  (lo <=? code c) && (code c <=? hi).

(** [str.lower] on one code point: A-Z and the Latin-1 capitals
    U+00C0..U+00DE (the multiplication sign U+00D7 apart) move up by 32. *)
Definition lower (c : ascii) : ascii :=
  if between 65 90 c || (between 192 222 c && negb (code c =? 215))
  then ascii_of_N (code c + 32)
  else c.

(** The class [\w] of a [str] pattern: alphanumeric code points and the
    underscore. *)
Definition re_word (c : ascii) : bool :=
  between 48 57 c || between 65 90 c || (code c =? 95) || between 97 122 c
  || (code c =? 170) || between 178 179 c || (code c =? 181)
  || between 185 186 c || between 188 190 c
  || between 192 214 c || between 216 246 c || between 248 255 c.

(** The class [\s] of a [str] pattern. *)
Definition re_space (c : ascii) : bool :=
  between 9 13 c || between 28 32 c || (code c =? 133) || (code c =? 160).

Definition hyphen : ascii := "-"%char.
Definition underscore : ascii := "_"%char.

Definition is_hyphen (c : ascii) : bool := Ascii.eqb c hyphen.
Definition is_underscore (c : ascii) : bool := Ascii.eqb c underscore.

End Char.

Local Close Scope N_scope.

(** ** String operations of Python used by the script *)

Module Str.

(** [s.lower()] *)
Fixpoint lower (s : string) : string :=
  match s with
  | EmptyString => EmptyString
  | String c s' => String (Char.lower c) (lower s')
  end.

(** [re.sub(r'[^\w\s-]', '', s)]: drop every character outside the
    three classes. *)
Definition kept (c : ascii) : bool :=
  Char.re_word c || Char.re_space c || Char.is_hyphen c.

Fixpoint remove_special (s : string) : string :=
  match s with
  | EmptyString => EmptyString
  | String c s' =>
      if kept c then String c (remove_special s') else remove_special s'
  end.

(** [re.sub(r'[-\s]+', '_', s)]: every maximal run of hyphens and
    whitespace becomes one underscore. *)
Definition separator (c : ascii) : bool :=
  Char.is_hyphen c || Char.re_space c.

(** [in_run] tells that the previous character belonged to a run whose
    underscore is already written. *)
Fixpoint collapse_from (in_run : bool) (s : string) : string :=
  match s with
  | EmptyString => EmptyString
  | String c s' =>
      if separator c
      then if in_run then collapse_from true s'
           else String Char.underscore (collapse_from true s')
      else String c (collapse_from false s')
  end.

Definition collapse_separators (s : string) : string :=
  collapse_from false s.

(** [s.strip('_')] *)
Fixpoint lstrip_underscore (s : string) : string :=
  match s with
  | EmptyString => EmptyString
  | String c s' => if Char.is_underscore c then lstrip_underscore s' else s
  end.

Fixpoint rstrip_underscore (s : string) : string :=
  match s with
  | EmptyString => EmptyString
  | String c s' =>
      match rstrip_underscore s' with
      | EmptyString =>
          if Char.is_underscore c then EmptyString else String c EmptyString
      | r => String c r
      end
  end.

Definition strip_underscore (s : string) : string :=
  rstrip_underscore (lstrip_underscore s).

(** [kw in s]: [kw] occurs in [s] as a contiguous substring. *)
Fixpoint contains (kw s : string) : bool :=
  String.prefix kw s
  || match s with
     | EmptyString => false
     | String _ s' => contains kw s'
     end.

(** [s.replace(old, new)]: the occurrences of [old] are replaced from
    left to right, without overlap.  [skip] counts the characters of an
    occurrence already replaced that are still to be passed over.  An
    empty [old] makes Python insert [new] around every character. *)
Fixpoint replace_from (old new : string) (skip : nat) (s : string) : string :=
  match s with
  | EmptyString =>
      match old with EmptyString => new | _ => EmptyString end
  | String c s' =>
      match skip with
      | S k => replace_from old new k s'
      | O =>
          match old with
          | EmptyString => new +:+ String c (replace_from old new O s')
          | String _ old' =>
              if String.prefix old s
              then new +:+ replace_from old new (String.length old') s'
              else String c (replace_from old new O s')
          end
      end
  end.

Definition replace (old new s : string) : string :=
  replace_from old new O s.

End Str.

(** ** [normalize_part_id] *)

Definition normalize_part_id (name : string) : string :=
  let normalized := Str.remove_special (Str.lower name) in
  let normalized := Str.collapse_separators normalized in
  let normalized := Str.strip_underscore normalized in
  normalized.

(** ** [determine_system] *)

Definition kw_skeletal : list string :=
  ["skeleton"; "bone"; "skull"; "vertebra"; "rib"; "femur"].
Definition kw_muscular : list string := ["muscle"; "muscular"].
Definition kw_nervous : list string := ["nerve"; "nervous"; "brain"; "spinal"].
Definition kw_cardiovascular : list string :=
  ["heart"; "cardiac"; "artery"; "vein"; "blood"].
Definition kw_respiratory : list string :=
  ["lung"; "respiratory"; "trachea"; "bronch"].
Definition kw_digestive : list string :=
  ["stomach"; "intestin"; "digestive"; "liver"; "pancrea"].
Definition kw_urinary : list string := ["kidney"; "bladder"; "urinary"; "ureter"].
Definition kw_lymphatic : list string := ["lymph"; "spleen"; "thymus"].
Definition kw_integumentary : list string := ["skin"; "integument"; "hair"].

(** The nine keyword sets, in the order of the [if]/[elif] chain. *)
Definition keyword_sets : list (list string) :=
  [kw_skeletal; kw_muscular; kw_nervous; kw_cardiovascular; kw_respiratory;
   kw_digestive; kw_urinary; kw_lymphatic; kw_integumentary].

(** [any(kw in name_lower for kw in kws)] *)
Definition any_in (kws : list string) (name_lower : string) : bool :=
  existsb (fun kw => Str.contains kw name_lower) kws.

(** [f"{collection_name} {object_name}".lower()] *)
Definition combined_lower (collection_name object_name : string) : string :=
  Str.lower (collection_name +:+ " " +:+ object_name).

Definition determine_system (collection_name object_name : string) : string :=
  let name_lower := combined_lower collection_name object_name in
  if any_in kw_skeletal name_lower then "SKELETAL"
  else if any_in kw_muscular name_lower then "MUSCULAR"
  else if any_in kw_nervous name_lower then "NERVOUS"
  else if any_in kw_cardiovascular name_lower then "CARDIOVASCULAR"
  else if any_in kw_respiratory name_lower then "RESPIRATORY"
  else if any_in kw_digestive name_lower then "DIGESTIVE"
  else if any_in kw_urinary name_lower then "URINARY"
  else if any_in kw_lymphatic name_lower then "LYMPHATIC"
  else if any_in kw_integumentary name_lower then "INTEGUMENTARY"
  else "SKELETAL".

(** ** Data model *)

(** What the script reads of a Blender object: [obj.type] and [obj.name]. *)
Record BObject := mkObject { obj_type : string; obj_name : string }.

(** [bpy.data.collections]: collections by name, each with its objects in
    the host's order. *)
Abbreviation Scene := (gmap string (list BObject)).

Record Synonym := mkSynonym {
  synonym : string;
  language : string;
  priority : Z
}.

Record PartRecord := mkPart {
  partId : string;
  name : string;
  system : string;
  modelPath : string;
  meshName : string;
  synonyms : list Synonym
}.

(** ** The body of the inner loop *)

(** Lines 88-104: the synonyms of one display name. *)
Definition make_synonyms (obj_name : string) : list Synonym :=
  let synonyms := [mkSynonym (Str.lower obj_name) "en" 10] in
  if Str.contains "left" (Str.lower obj_name) then
    synonyms ++
    [mkSynonym (Str.replace ".l" "" (Str.replace "left" "l" (Str.lower obj_name)))
               "en" 8]
  else if Str.contains "right" (Str.lower obj_name) then
    synonyms ++
    [mkSynonym (Str.replace ".r" "" (Str.replace "right" "r" (Str.lower obj_name)))
               "en" 8]
  else synonyms.

(** The dictionary literal [system_paths]. *)
Definition system_paths : gmap string string :=
  <["SKELETAL" := "skeleton/skeleton-full.glb"]>
  (<["MUSCULAR" := "muscular/muscles-full.glb"]>
  (<["CARDIOVASCULAR" := "cardiovascular/cardiovascular-full.glb"]>
  (<["NERVOUS" := "nervous/nervous-full.glb"]>
  (<["RESPIRATORY" := "respiratory/visceral-full.glb"]>
  (<["DIGESTIVE" := "respiratory/visceral-full.glb"]> ∅))))).

(** [f"/models/{system_paths.get(system, 'skeleton/skeleton-full.glb')}"] *)
Definition model_path (system : string) : string :=
  "/models/" +:+ default "skeleton/skeleton-full.glb" (system_paths !! system).

(** The dictionary [part_entry] built for one accepted object. *)
Definition part_entry (system obj_name : string) : PartRecord :=
  {| partId := normalize_part_id obj_name;
     name := obj_name;
     system := system;
     modelPath := model_path system;
     meshName := obj_name;
     synonyms := make_synonyms obj_name |}.

(** The variables the loops update: the list [ontology] and the set
    [processed_names].  [calls] is a ghost log of the arguments of every
    call of [determine_system]; no decision reads it. *)
Record LoopState := mkState {
  ontology : list PartRecord;
  processed_names : gset string;
  calls : list (string * string)
}.

Definition initial_state : LoopState := mkState [] ∅ [].

(** [obj.type != 'MESH' or not obj.name] *)
Definition skipped (obj : BObject) : bool :=
  negb (String.eqb (obj_type obj) "MESH") || String.eqb (obj_name obj) "".

(** One iteration of [for obj in collection.objects]. *)
Definition process_object (system : string) (st : LoopState) (obj : BObject)
  : LoopState :=
  if skipped obj then st
  else if bool_decide (obj_name obj ∈ processed_names st) then st
  else
    {| ontology := ontology st ++ [part_entry system (obj_name obj)];
       processed_names := processed_names st ∪ {[ obj_name obj ]};
       calls := calls st |}.

(** ** The outer loop, with the faults of the host interface *)

Inductive Fault := KeyError (key : string).

Abbreviation Result := (sum Fault).

#[global] Instance result_ret : MRet Result := fun A a => inr a.

#[global] Instance result_bind : MBind Result := fun A B k m =>
  match m with
  | inl e => inl e
  | inr a => k a
  end.

(** [name in bpy.data.collections] *)
Definition has_collection (scene : Scene) (key : string) : bool :=
  bool_decide (is_Some (scene !! key)).

(** [bpy.data.collections[name]], which raises on an absent key. *)
Definition get_collection (scene : Scene) (key : string)
  : Result (list BObject) :=
  match scene !! key with
  | Some objects => mret objects
  | None => inl (KeyError key)
  end.

Definition main_collections : list string :=
  ["1: Skeletal system";
   "4: Muscular system";
   "5: Cardiovascular system";
   "7: Nervous system & Sense organs";
   "8: Visceral systems"].

Definition record_call (collection_name object_name : string) (st : LoopState)
  : LoopState :=
  {| ontology := ontology st;
     processed_names := processed_names st;
     calls := calls st ++ [(collection_name, object_name)] |}.

(** One iteration of [for collection_name in main_collections]. *)
Definition process_collection (scene : Scene) (st : LoopState)
    (collection_name : string) : Result LoopState :=
  if negb (has_collection scene collection_name) then mret st
  else
    collection ← get_collection scene collection_name;
    let system := determine_system collection_name "" in
    mret (foldl (process_object system)
               (record_call collection_name "" st) collection).

Fixpoint for_collections (scene : Scene) (names : list string) (st : LoopState)
  : Result LoopState :=
  match names with
  | [] => mret st
  | collection_name :: rest =>
      st' ← process_collection scene st collection_name;
      for_collections scene rest st'
  end.

(** The state in which the traversal of [extract_ontology] ends. *)
Definition run_extraction (scene : Scene) : Result LoopState :=
  for_collections scene main_collections initial_state.

(** [extract_ontology]: the list that the script serialises to its two
    output files. *)
Definition extract_ontology (scene : Scene) : Result (list PartRecord) :=
  st ← run_extraction scene;
  mret (ontology st).


(** ** Vocabulary of the statements *)

(** A collection's object list offers the display name [n]: it holds a
    mesh object with that non-empty name. *)
Definition offers (objects : list BObject) (n : string) : bool :=
  existsb (fun obj => negb (skipped obj) && String.eqb (obj_name obj) n) objects.

Definition collection_offers (scene : Scene) (n : string) (collection_name : string)
  : bool :=
  match scene !! collection_name with
  | Some objects => offers objects n
  | None => false
  end.

(** The first collection, in traversal order, that offers [n]. *)
Definition first_source (scene : Scene) (n : string) : option string :=
  List.find (collection_offers scene n) main_collections.

(** The state after one iteration of the outer loop that raises no fault. *)
Definition collection_result (scene : Scene) (st : LoopState)
    (collection_name : string) : LoopState :=
  match scene !! collection_name with
  | Some objects =>
      foldl (process_object (determine_system collection_name ""))
            (record_call collection_name "" st) objects
  | None => st
  end.

(** The records of [l] whose name is [n]. *)
Definition named (n : string) (l : list PartRecord) : list PartRecord :=
  filter (λ r, name r = n) l.

(** The two states agree on everything the script writes out. *)
Definition same_output (st st' : LoopState) : Prop :=
  ontology st = ontology st' ∧ processed_names st = processed_names st'.

(** The scene of the end-to-end example. *)
Definition skull_scene : Scene :=
  {[ "1: Skeletal system" := [mkObject "MESH" "Skull"] ]}.

(** A scene in which two collections hold a mesh named Heart. *)
Definition heart_scene : Scene :=
  <["4: Muscular system" := [mkObject "MESH" "Heart"; mkObject "MESH" "Biceps"]]>
  (<["7: Nervous system & Sense organs" :=
       [mkObject "EMPTY" "Rig"; mkObject "MESH" "Heart"]]> ∅).

(** ** The statistics at the end of [extract_ontology] *)

(** Lines 152-155, one iteration:
    [systems[sys] = systems.get(sys, 0) + 1]. *)
Definition count_part (systems : gmap string nat) (part : PartRecord)
  : gmap string nat :=
  let sys := system part in
  <[sys := default 0 (systems !! sys) + 1]> systems.

(** The dictionary [systems] after the loop over [ontology]. *)
Definition parts_by_system (ontology : list PartRecord) : gmap string nat :=
  foldl count_part ∅ ontology.

(** ** Further vocabulary *)

(** The display names of the objects of a collection that the inner loop
    does not skip, in the host's order. *)
Definition mesh_names (objects : list BObject) : list string :=
  map obj_name (List.filter (λ obj, negb (skipped obj)) objects).

Definition scene_mesh_names (scene : Scene) (collection_name : string)
  : list string :=
  match scene !! collection_name with
  | Some objects => mesh_names objects
  | None => []
  end.

(** The elements of [l] outside [seen], each at its first occurrence. *)
Fixpoint first_occurrences (seen : gset string) (l : list string)
  : list string :=
  match l with
  | [] => []
  | x :: l' =>
      if bool_decide (x ∈ seen) then first_occurrences seen l'
      else x :: first_occurrences (seen ∪ {[ x ]}) l'
  end.

(** The sum of the counts of a statistics dictionary. *)
Definition total_count (systems : gmap string nat) : nat :=
  map_fold (λ _ k acc, k + acc) 0 systems.

(** ** The tables of [scripts/export-z-anatomy-main-systems.py] *)

(** The list [systems] of [main]: collection name, output directory and
    file name. *)
Definition export_systems : list (string * string * string) :=
  [("1: Skeletal system", "skeleton", "skeleton-full");
   ("4: Muscular system", "muscular", "muscles-full");
   ("5: Cardiovascular system", "cardiovascular", "cardiovascular-full");
   ("7: Nervous system & Sense organs", "nervous", "nervous-full");
   ("8: Visceral systems", "respiratory", "visceral-full")].

(** The list [specific_parts] of [main]: object name, output directory and
    file name. *)
Definition specific_parts : list (string * string * string) :=
  [("Left lung", "respiratory", "lung-left");
   ("Right lung", "respiratory", "lung-right")].

(** [f"{OUTPUT_DIR}/{output_dir}/{filename}.glb"] and its two variants for
    the decimated exports.  [OUTPUT_DIR] is an absolute path computed by
    the operating system; it is a parameter here. *)
Definition high_path (OUTPUT_DIR : string) (row : string * string * string)
  : string :=
  let '(_, output_dir, filename) := row in
  OUTPUT_DIR +:+ "/" +:+ output_dir +:+ "/" +:+ filename +:+ ".glb".

Definition med_path (OUTPUT_DIR : string) (row : string * string * string)
  : string :=
  let '(_, output_dir, filename) := row in
  OUTPUT_DIR +:+ "/" +:+ output_dir +:+ "/" +:+ filename +:+ "-med.glb".

Definition low_path (OUTPUT_DIR : string) (row : string * string * string)
  : string :=
  let '(_, output_dir, filename) := row in
  OUTPUT_DIR +:+ "/" +:+ output_dir +:+ "/" +:+ filename +:+ "-low.glb".

(** The output paths that [main] computes, in the order of its four
    loops. *)
Definition main_output_paths (OUTPUT_DIR : string) : list string :=
  map (high_path OUTPUT_DIR) export_systems
  ++ map (med_path OUTPUT_DIR) export_systems
  ++ map (low_path OUTPUT_DIR) export_systems
  ++ map (high_path OUTPUT_DIR) specific_parts.

(** ** The grouping by type of [scripts/inspect-blender.py] *)

(** Lines 42-47 of [inspect_blend_file], one iteration: the name of the
    object is appended to the list kept under its type, created empty
    when the type is met first.  The order of the keys, which only the
    printing uses, is not kept. *)
Definition group_object (anatomy_parts : gmap string (list string))
    (obj : BObject) : gmap string (list string) :=
  let obj_type := obj_type obj in
  let anatomy_parts :=
    if bool_decide (is_Some (anatomy_parts !! obj_type)) then anatomy_parts
    else <[obj_type := []]> anatomy_parts in
  alter (λ names, names ++ [obj_name obj]) obj_type anatomy_parts.

(** The dictionary [anatomy_parts] after the loop over [bpy.data.objects]. *)
Definition group_by_type (objects : list BObject) : gmap string (list string) :=
  foldl group_object ∅ objects.

(** The names of the objects of type [t], in order. *)
Definition names_of_type (t : string) (objects : list BObject) : list string :=
  map obj_name (filter (λ obj, obj_type obj = t) objects).

(** ** Strings of arbitrary code points *)

(** The definitions above read a name as a string of code points below
    U+0100.  This module embeds [normalize_part_id] and [determine_system]
    once more, over every Python string: a string is the list of its code
    points.  Below U+0100 the tables of [Char] are used; from U+0100 on,
    the tables of the Unicode database that CPython consults are taken as
    parameters. *)

Module Unicode.

(** The code points of a string of the first embedding. *)
Fixpoint codes (s : string) : list N :=
  match s with
  | EmptyString => []
  | String a s' => Char.code a :: codes s'
  end.

Record Tables := mkTables {
  (** [_PyUnicode_ToLowerFull]: the full lowercase mapping, of one to
      three code points; read from U+0100 on *)
  to_lower_full : N → list N;
  (** [_PyUnicode_IsCased] and [_PyUnicode_IsCaseIgnorable]; read at every
      code point *)
  is_cased : N → bool;
  is_case_ignorable : N → bool;
  (** [Py_UNICODE_ISALNUM] and [Py_UNICODE_ISSPACE]; read from U+0100 on *)
  is_alnum : N → bool;
  is_space : N → bool
}.

Definition capital_sigma : N := 931.
Definition final_small_sigma : N := 962.
Definition small_sigma : N := 963.
Definition space : N := 32.
Definition hyphen : N := 45.
Definition underscore : N := 95.

Section Model.

Variable T : Tables.

Definition latin1 (c : N) : bool := (c <? 256)%N.

(** The lowercase mapping of one code point, outside any context. *)
Definition lower_one (c : N) : list N :=
  if latin1 c then [Char.code (Char.lower (ascii_of_N c))]
  else to_lower_full T c.

(** The scans of [handle_capital_sigma]: the nearest code point that is
    not case-ignorable, in a list that starts with the nearest one. *)
Definition scan (l : list N) : option N :=
  List.find (λ c, negb (is_case_ignorable T c)) l.

(** A capital sigma is final when a cased code point precedes it and none
    follows, case-ignorable code points apart.  [before] lists the code
    points before it from the nearest one, [after] those after it. *)
Definition final_sigma (before after : list N) : bool :=
  match scan before with
  | Some c => is_cased T c
  | None => false
  end
  && match scan after with
     | Some c => negb (is_cased T c)
     | None => true
     end.

(** [lower_ucs4]: the capital sigma is the one code point whose lower case
    depends on its context. *)
Definition lower_at (before after : list N) (c : N) : list N :=
  if (c =? capital_sigma)%N
  then [if final_sigma before after then final_small_sigma else small_sigma]
  else lower_one c.

Fixpoint lower_from (before s : list N) : list N :=
  match s with
  | [] => []
  | c :: s' => lower_at before s' c ++ lower_from (c :: before) s'
  end.

(** [s.lower()] *)
Definition lower (s : list N) : list N := lower_from [] s.

(** The classes [\w] and [\s] of a [str] pattern: alphanumeric or
    underscore, and whitespace. *)
Definition re_word (c : N) : bool :=
  if latin1 c then Char.re_word (ascii_of_N c)
  else is_alnum T c || (c =? underscore)%N.

Definition re_space (c : N) : bool :=
  if latin1 c then Char.re_space (ascii_of_N c) else is_space T c.

(** [re.sub(r'[^\w\s-]', '', s)] *)
Definition kept (c : N) : bool :=
  re_word c || re_space c || (c =? hyphen)%N.

Fixpoint remove_special (s : list N) : list N :=
  match s with
  | [] => []
  | c :: s' => if kept c then c :: remove_special s' else remove_special s'
  end.

(** [re.sub(r'[-\s]+', '_', s)] *)
Definition separator (c : N) : bool :=
  (c =? hyphen)%N || re_space c.

Fixpoint collapse_from (in_run : bool) (s : list N) : list N :=
  match s with
  | [] => []
  | c :: s' =>
      if separator c
      then if in_run then collapse_from true s'
           else underscore :: collapse_from true s'
      else c :: collapse_from false s'
  end.

Definition collapse_separators (s : list N) : list N :=
  collapse_from false s.

(** [s.strip('_')] *)
Fixpoint lstrip_underscore (s : list N) : list N :=
  match s with
  | [] => []
  | c :: s' => if (c =? underscore)%N then lstrip_underscore s' else s
  end.

Fixpoint rstrip_underscore (s : list N) : list N :=
  match s with
  | [] => []
  | c :: s' =>
      match rstrip_underscore s' with
      | [] => if (c =? underscore)%N then [] else [c]
      | r => c :: r
      end
  end.

Definition strip_underscore (s : list N) : list N :=
  rstrip_underscore (lstrip_underscore s).

Definition normalize_part_id (name : list N) : list N :=
  let normalized := remove_special (lower name) in
  let normalized := collapse_separators normalized in
  let normalized := strip_underscore normalized in
  normalized.

(** [kw in s] *)
Fixpoint prefix (kw s : list N) : bool :=
  match kw, s with
  | [], _ => true
  | _ :: _, [] => false
  | k :: kw', c :: s' => (k =? c)%N && prefix kw' s'
  end.

Fixpoint contains (kw s : list N) : bool :=
  prefix kw s
  || match s with
     | [] => false
     | _ :: s' => contains kw s'
     end.

(** [any(kw in name_lower for kw in kws)], for the keyword lists of
    [determine_system], which are literals of the script. *)
Definition any_in (kws : list string) (name_lower : list N) : bool :=
  existsb (fun kw => contains (codes kw) name_lower) kws.

(** [f"{collection_name} {object_name}".lower()] *)
Definition combined_lower (collection_name object_name : list N) : list N :=
  lower (collection_name ++ space :: object_name).

Definition determine_system (collection_name object_name : list N) : string :=
  let name_lower := combined_lower collection_name object_name in
  if any_in kw_skeletal name_lower then "SKELETAL"
  else if any_in kw_muscular name_lower then "MUSCULAR"
  else if any_in kw_nervous name_lower then "NERVOUS"
  else if any_in kw_cardiovascular name_lower then "CARDIOVASCULAR"
  else if any_in kw_respiratory name_lower then "RESPIRATORY"
  else if any_in kw_digestive name_lower then "DIGESTIVE"
  else if any_in kw_urinary name_lower then "URINARY"
  else if any_in kw_lymphatic name_lower then "LYMPHATIC"
  else if any_in kw_integumentary name_lower then "INTEGUMENTARY"
  else "SKELETAL".

(** A code point that lowering leaves alone in every context. *)
Definition stable (d : N) : Prop :=
  d ≠ capital_sigma ∧ lower_one d = [d].


End Model.

(** Two laws of the Unicode tables.  The first: the code points of a
    lowercase mapping are their own lower case, and so are the two small
    sigmas.  The second: the space is neither cased nor case-ignorable.
    Both hold of the tables of CPython 3.11. *)
Definition lowercase_stable (T : Tables) : Prop :=
  (∀ c d, (256 ≤ c)%N → d ∈ to_lower_full T c → stable T d)
  ∧ stable T final_small_sigma
  ∧ stable T small_sigma.

Definition space_uncased (T : Tables) : Prop :=
  is_cased T space = false ∧ is_case_ignorable T space = false.

(** A fragment of the tables: the capital I with dot above, whose lower
    case has two code points, the Greek capitals, and a few spaces. *)
Definition greek (c : N) : bool :=
  ((913 <=? c) && (c <=? 939) && negb (c =? 930)
   || (945 <=? c) && (c <=? 971))%N.

Definition sample_tables : Tables :=
  {| to_lower_full := λ c,
       if (c =? 304)%N then [105; 775]%N
       else if ((913 <=? c) && (c <=? 939) && negb (c =? 930))%N
            then [(c + 32)%N]
            else [c];
     is_cased := λ c,
       ((65 <=? c) && (c <=? 90) || (97 <=? c) && (c <=? 122))%N || greek c;
     is_case_ignorable := λ c, ((c =? 39) || (c =? 46) || (c =? 775))%N;
     is_alnum := greek;
     is_space := λ c, ((c =? 12288) || (8192 <=? c) && (c <=? 8202))%N |}.

(** ISTANBUL with a dotted capital I, a space and the Greek word for
    street in capitals, which ends in a sigma. *)
Definition sample_name : list N :=
  [304; 83; 84; 65; 78; 66; 85; 76; 32; 927; 916; 927; 931]%N.

End Unicode.

(** * Properties *)

(** ** Fixed inputs *)

Example normalize_left_lung : normalize_part_id "  Left--Lung  " = "left_lung".
Proof. reflexivity. Qed.

Example synonyms_left_lung :
  make_synonyms "Left Lung.L" =
    [mkSynonym "left lung.l" "en" 10; mkSynonym "l lung" "en" 8].
Proof. reflexivity. Qed.

(** C1, as stated: the display name Lung.L would get two synonyms, the
    lowercased name at priority 10 and a second one at priority 8.  The
    script does not produce such a list. *)
Lemma lung_l_not_two_synonyms :
  ¬ ∃ variant : string,
      make_synonyms "Lung.L" =
        [mkSynonym "lung.l" "en" 10; mkSynonym variant "en" 8].
Proof. intros [variant H]. vm_compute in H. discriminate H. Qed.

(** C1, amended: the display name Lung.L gets exactly one synonym, the
    lowercased name at priority 10 in language en; its lowercased form
    contains neither left nor right, so no variant at priority 8 follows,
    whatever the system of the part. *)
Theorem lung_l_one_synonym :
  Str.contains "left" (Str.lower "Lung.L") = false ∧
  Str.contains "right" (Str.lower "Lung.L") = false ∧
  ∀ system : string,
    synonyms (part_entry system "Lung.L") = [mkSynonym "lung.l" "en" 10].
Proof. repeat split. Qed.

(** C2, as stated: [normalize_part_id] would send Femur.R to femur_r.  It
    does not. *)
Lemma femur_r_no_underscore : normalize_part_id "Femur.R" ≠ "femur_r".
Proof. vm_compute. discriminate. Qed.

(** C2, amended: [normalize_part_id] sends Femur.R to femurr: the dot is
    removed and the case lowered, and nothing separates femur from r. *)
Theorem femur_r_normalized : normalize_part_id "Femur.R" = "femurr".
Proof. reflexivity. Qed.

(** C4: on the scene with the single collection 1: Skeletal system holding
    the single mesh Skull, the run ends normally with exactly one record,
    whose partId is skull, system SKELETAL and modelPath
    /models/skeleton/skeleton-full.glb. *)
Theorem skull_end_to_end :
  ∃ r : PartRecord,
    extract_ontology skull_scene = inr [r] ∧
    partId r = "skull" ∧
    system r = "SKELETAL" ∧
    modelPath r = "/models/skeleton/skeleton-full.glb".
Proof.
  eexists. split; [vm_compute; reflexivity|]. repeat split.
Qed.

(** C7: the model path of each of the nine systems.  Six are keys of
    [system_paths]; URINARY, LYMPHATIC and INTEGUMENTARY are not and take
    the path of SKELETAL. *)
Theorem model_path_table :
  model_path "SKELETAL" = "/models/skeleton/skeleton-full.glb" ∧
  model_path "MUSCULAR" = "/models/muscular/muscles-full.glb" ∧
  model_path "CARDIOVASCULAR" = "/models/cardiovascular/cardiovascular-full.glb" ∧
  model_path "NERVOUS" = "/models/nervous/nervous-full.glb" ∧
  model_path "RESPIRATORY" = "/models/respiratory/visceral-full.glb" ∧
  model_path "DIGESTIVE" = "/models/respiratory/visceral-full.glb" ∧
  model_path "URINARY" = "/models/skeleton/skeleton-full.glb" ∧
  model_path "LYMPHATIC" = "/models/skeleton/skeleton-full.glb" ∧
  model_path "INTEGUMENTARY" = "/models/skeleton/skeleton-full.glb".
Proof. repeat split; vm_compute; reflexivity. Qed.

(** ** Classification *)

Lemma any_in_member (kws : list string) (kw name_lower : string) :
  kw ∈ kws → Str.contains kw name_lower = true → any_in kws name_lower = true.
Proof.
  intros Hin Hc. apply existsb_exists. exists kw. split; [|exact Hc].
  by apply list_elem_of_In.
Qed.

(** C6: when the combined lowercased text of the two names contains both
    muscle and bone, the result is SKELETAL: the skeletal keywords are
    tested first. *)
Theorem muscle_and_bone_is_skeletal (collection_name object_name : string) :
  Str.contains "muscle" (combined_lower collection_name object_name) = true →
  Str.contains "bone" (combined_lower collection_name object_name) = true →
  determine_system collection_name object_name = "SKELETAL".
Proof.
  intros _ Hbone. unfold determine_system; cbv zeta.
  rewrite (any_in_member kw_skeletal "bone" _); [reflexivity| |exact Hbone].
  unfold kw_skeletal. set_solver.
Qed.

Lemma muscle_and_bone_witness :
  Str.contains "muscle" (combined_lower "Muscle attachments" "Hip bone") = true ∧
  Str.contains "bone" (combined_lower "Muscle attachments" "Hip bone") = true ∧
  determine_system "Muscle attachments" "Hip bone" = "SKELETAL".
Proof.
  split; [reflexivity|]. split; [reflexivity|].
  apply muscle_and_bone_is_skeletal; reflexivity.
Defined.

(** ** The inner loop *)

Section InnerLoop.

Variable system_of_collection : string.

Let step := process_object system_of_collection.

Lemma process_object_cases (st : LoopState) (obj : BObject) :
  (skipped obj = true ∧ step st obj = st)
  ∨ (skipped obj = false ∧ (obj_name obj ∈ processed_names st) ∧
     step st obj = st)
  ∨ (skipped obj = false ∧ (obj_name obj ∉ processed_names st) ∧
     step st obj =
       mkState (ontology st ++ [part_entry system_of_collection (obj_name obj)])
               (processed_names st ∪ {[ obj_name obj ]})
               (calls st)).
Proof.
  unfold step, process_object.
  destruct (skipped obj); [by left|right].
  case_bool_decide; [left|right]; done.
Qed.

Lemma offers_cons (obj : BObject) (objects : list BObject) (n : string) :
  offers (obj :: objects) n
  = (negb (skipped obj) && String.eqb (obj_name obj) n) || offers objects n.
Proof. reflexivity. Qed.

Lemma inner_calls (objects : list BObject) (st : LoopState) :
  calls (foldl step st objects) = calls st.
Proof.
  revert st. induction objects as [|obj objects IH]; intros st; [done|].
  cbn [foldl]. rewrite IH.
  destruct (process_object_cases st obj)
    as [(_ & ->) | [(_ & _ & ->) | (_ & _ & ->)]]; done.
Qed.

(** What the loop over one collection appends are entries built with the
    collection's system. *)
Lemma inner_appends (objects : list BObject) (st : LoopState) :
  ∃ new : list PartRecord,
    ontology (foldl step st objects) = ontology st ++ new ∧
    Forall (λ r, ∃ n, r = part_entry system_of_collection n) new.
Proof.
  revert st. induction objects as [|obj objects IH]; intros st.
  { exists []. by rewrite app_nil_r. }
  cbn [foldl].
  destruct (IH (step st obj)) as (new & -> & Hnew).
  destruct (process_object_cases st obj)
    as [(_ & ->) | [(_ & _ & ->) | (_ & _ & ->)]]; eauto.
  cbn [ontology]. rewrite <- app_assoc. eexists. split; [done|].
  constructor; eauto.
Qed.

Lemma inner_processed (objects : list BObject) (st : LoopState) (n : string) :
  n ∈ processed_names (foldl step st objects)
  ↔ n ∈ processed_names st ∨ offers objects n = true.
Proof.
  revert st. induction objects as [|obj objects IH]; intros st.
  { cbn. split; [by left|]. by intros [?|?]. }
  cbn [foldl]. rewrite IH, offers_cons.
  destruct (process_object_cases st obj)
    as [(Hs & ->) | [(Hs & Hin & ->) | (Hs & Hnin & ->)]]; rewrite Hs;
    cbn [negb andb orb ontology processed_names].
  - done.
  - destruct (String.eqb_spec (obj_name obj) n) as [<-|]; cbn [orb];
      [|done]. split; [tauto|]. by intros _; left.
  - rewrite elem_of_union, elem_of_singleton.
    destruct (String.eqb_spec (obj_name obj) n) as [<-|]; cbn [orb].
    + split; [by intros _; right|]. by intros _; left; right.
    + split; [intros [[?|?]|?]; [by left|congruence|by right]|].
      intros [?|?]; [left; by left|by right].
Qed.

Lemma inner_named (objects : list BObject) (st : LoopState) (n : string) :
  named n (ontology (foldl step st objects))
  = named n (ontology st) ++
    if bool_decide (n ∈ processed_names st) then []
    else if offers objects n then [part_entry system_of_collection n] else [].
Proof.
  revert st. induction objects as [|obj objects IH]; intros st.
  { cbn. case_bool_decide; by rewrite app_nil_r. }
  cbn [foldl]. rewrite IH, offers_cons.
  destruct (process_object_cases st obj)
    as [(Hs & ->) | [(Hs & Hin & ->) | (Hs & Hnin & ->)]]; rewrite Hs;
    cbn [negb andb orb ontology processed_names].
  - done.
  - destruct (String.eqb_spec (obj_name obj) n) as [<-|]; cbn [orb]; [|done].
    by rewrite bool_decide_eq_true_2.
  - unfold named. rewrite filter_app, <- app_assoc. f_equal.
    destruct (String.eqb_spec (obj_name obj) n) as [<-|Hne]; cbn [orb].
    + rewrite filter_cons_True by done.
      rewrite bool_decide_eq_true_2 by set_solver.
      by rewrite bool_decide_eq_false_2.
    + rewrite filter_cons_False by done. rewrite filter_nil.
      cbn [app]. apply (f_equal (λ b : bool, if b then [] else _)).
      apply bool_decide_ext. rewrite elem_of_union, elem_of_singleton.
      split; [intros [?|?]; [done|congruence]|by left].
Qed.

Lemma process_object_same (st st' : LoopState) (obj : BObject) :
  same_output st st' → same_output (step st obj) (step st' obj).
Proof.
  intros [Ho Hp]. unfold step, process_object. rewrite Ho, Hp.
  destruct (skipped obj); [done|]. by case_bool_decide.
Qed.

Lemma inner_same (objects : list BObject) (st st' : LoopState) :
  same_output st st' →
  same_output (foldl step st objects) (foldl step st' objects).
Proof.
  revert st st'. induction objects as [|obj objects IH]; intros st st' H;
    [done|].
  cbn [foldl]. by apply IH, process_object_same.
Qed.

End InnerLoop.

(** ** The outer loop *)

Section OuterLoop.

Variable scene : gmap string (list BObject).

(** The guard on line 65 keeps the lookup on line 68 from raising. *)
Lemma process_collection_ok (st : LoopState) (collection_name : string) :
  process_collection scene st collection_name
  = inr (collection_result scene st collection_name).
Proof.
  unfold process_collection, collection_result, has_collection, get_collection.
  destruct (scene !! collection_name) as [objects|] eqn:Hc.
  - rewrite bool_decide_eq_true_2 by eauto. reflexivity.
  - rewrite bool_decide_eq_false_2 by (by intros [? ?]). reflexivity.
Qed.

Lemma for_collections_ok (names : list string) (st : LoopState) :
  for_collections scene names st
  = inr (foldl (collection_result scene) st names).
Proof.
  revert st. induction names as [|c names IH]; intros st; [reflexivity|].
  cbn [for_collections foldl]. rewrite process_collection_ok. apply IH.
Qed.

Lemma record_call_same (c o : string) (st : LoopState) :
  same_output st (record_call c o st).
Proof. done. Qed.

Lemma step_appends (st : LoopState) (c : string) :
  ∃ new : list PartRecord,
    ontology (collection_result scene st c) = ontology st ++ new ∧
    Forall (λ r, ∃ n, r = part_entry (determine_system c "") n) new.
Proof.
  unfold collection_result. destruct (scene !! c) as [objects|].
  - apply (inner_appends _ objects (record_call c "" st)).
  - exists []. by rewrite app_nil_r.
Qed.

Lemma step_processed (st : LoopState) (c n : string) :
  n ∈ processed_names (collection_result scene st c)
  ↔ n ∈ processed_names st ∨ collection_offers scene n c = true.
Proof.
  unfold collection_result, collection_offers.
  destruct (scene !! c) as [objects|].
  - apply (inner_processed _ objects (record_call c "" st)).
  - split; [by left|]. by intros [?|?].
Qed.

Lemma step_named (st : LoopState) (c n : string) :
  named n (ontology (collection_result scene st c))
  = named n (ontology st) ++
    if bool_decide (n ∈ processed_names st) then []
    else if collection_offers scene n c
         then [part_entry (determine_system c "") n] else [].
Proof.
  unfold collection_result, collection_offers.
  destruct (scene !! c) as [objects|].
  - apply (inner_named _ objects (record_call c "" st)).
  - case_bool_decide; by rewrite app_nil_r.
Qed.

Lemma step_calls (st : LoopState) (c : string) :
  calls (collection_result scene st c)
  = calls st ++ if has_collection scene c then [(c, "")] else [].
Proof.
  unfold collection_result, has_collection.
  destruct (scene !! c) as [objects|] eqn:Hc.
  - rewrite inner_calls, bool_decide_eq_true_2 by eauto. reflexivity.
  - rewrite bool_decide_eq_false_2 by (by intros [? ?]). by rewrite app_nil_r.
Qed.

(** A property of all entries of the collections traversed holds of the
    whole list. *)
Lemma outer_Forall (P : PartRecord → Prop) (names : list string)
    (st : LoopState) :
  (∀ c n, c ∈ names → P (part_entry (determine_system c "") n)) →
  Forall P (ontology st) →
  Forall P (ontology (foldl (collection_result scene) st names)).
Proof.
  revert st. induction names as [|c names IH]; intros st HP Hst; [done|].
  cbn [foldl]. apply IH.
  - intros c' n Hc'. apply HP. by right.
  - destruct (step_appends st c) as (new & -> & Hnew).
    apply Forall_app. split; [done|].
    eapply Forall_impl; [exact Hnew|].
    intros r [n ->]. apply HP. by left.
Qed.

Lemma outer_named (names : list string) (st : LoopState) (n : string) :
  named n (ontology (foldl (collection_result scene) st names))
  = named n (ontology st) ++
    if bool_decide (n ∈ processed_names st) then []
    else match List.find (collection_offers scene n) names with
         | Some c => [part_entry (determine_system c "") n]
         | None => []
         end.
Proof.
  revert st. induction names as [|c names IH]; intros st.
  { cbn. case_bool_decide; by rewrite app_nil_r. }
  cbn [foldl List.find]. rewrite IH, step_named, <- app_assoc. f_equal.
  pose proof (step_processed st c n) as Hp.
  destruct (collection_offers scene n c).
  - rewrite (bool_decide_eq_true_2 (n ∈ processed_names (collection_result _ _ _)))
      by (apply Hp; by right).
    by rewrite app_nil_r.
  - case_bool_decide as Hin.
    + rewrite bool_decide_eq_true_2 by (apply Hp; by left). done.
    + rewrite bool_decide_eq_false_2; [done|].
      rewrite Hp. by intros [?|?].
Qed.

Lemma outer_calls (names : list string) (st : LoopState) :
  calls (foldl (collection_result scene) st names)
  = calls st ++
    map (λ c, (c, "")) (List.filter (has_collection scene) names).
Proof.
  revert st. induction names as [|c names IH]; intros st.
  { cbn. by rewrite app_nil_r. }
  cbn [foldl List.filter]. rewrite IH, step_calls, <- app_assoc.
  by destruct (has_collection scene c).
Qed.

Lemma step_absent (st : LoopState) (c : string) :
  scene !! c = None → collection_result scene st c = st.
Proof. intros Hc. unfold collection_result. by rewrite Hc. Qed.

(** Leaving an absent collection out of the list changes nothing. *)
Lemma outer_without_absent (c : string) (names : list string)
    (st : LoopState) :
  scene !! c = None →
  foldl (collection_result scene) st (filter (λ x, x ≠ c) names)
  = foldl (collection_result scene) st names.
Proof.
  intros Hc. revert st. induction names as [|x names IH]; intros st; [done|].
  destruct (decide (x = c)) as [->|Hx].
  - rewrite filter_cons_False by (by intros ?). cbn [foldl].
    by rewrite IH, step_absent.
  - rewrite filter_cons_True by done. cbn [foldl]. apply IH.
Qed.

End OuterLoop.

(** An empty collection under an absent name is not seen in the output. *)
Lemma outer_with_empty (scene : gmap string (list BObject)) (c : string)
    (names : list string) (st st' : LoopState) :
  scene !! c = None →
  same_output st st' →
  same_output (foldl (collection_result scene) st names)
              (foldl (collection_result (<[c := []]> scene)) st' names).
Proof.
  intros Hc. revert st st'.
  induction names as [|x names IH]; intros st st' Hsame; [done|].
  cbn [foldl]. apply IH. unfold collection_result.
  destruct (decide (x = c)) as [->|Hx].
  - by rewrite Hc, lookup_insert_eq.
  - rewrite lookup_insert_ne by done.
    destruct (scene !! x) as [objects|]; [|done].
    by apply inner_same.
Qed.

(** A list in which no name occurs twice. *)
Lemma NoDup_names (l : list PartRecord) :
  (∀ n, length (named n l) ≤ 1) → NoDup (map name l).
Proof.
  induction l as [|r l IH]; intros H; [constructor|].
  cbn [map]. constructor.
  - intros Hin%list_elem_of_In. apply in_map_iff in Hin as (r' & Heq & Hr').
    specialize (H (name r)). unfold named in H.
    rewrite filter_cons_True in H by done.
    apply list_elem_of_In, list_elem_of_split in Hr' as (l1 & l2 & ->).
    rewrite filter_app, filter_cons_True in H by done.
    cbn in H. rewrite length_app in H. cbn in H. lia.
  - apply IH. intros n. specialize (H n). unfold named in *.
    destruct (decide (name r = n)).
    + rewrite filter_cons_True in H by done. cbn in H. lia.
    + by rewrite filter_cons_False in H.
Qed.

(** ** The whole run *)

(** The run raises no fault, whatever the scene. *)
Lemma run_extraction_ok (scene : gmap string (list BObject)) :
  run_extraction scene
  = inr (foldl (collection_result scene) initial_state main_collections).
Proof. apply for_collections_ok. Qed.

Lemma extract_ontology_ok (scene : gmap string (list BObject)) :
  extract_ontology scene
  = inr (ontology (foldl (collection_result scene) initial_state main_collections)).
Proof. unfold extract_ontology. by rewrite run_extraction_ok. Qed.

Lemma main_collections_cases (P : string → Prop) :
  P "1: Skeletal system" →
  P "4: Muscular system" →
  P "5: Cardiovascular system" →
  P "7: Nervous system & Sense organs" →
  P "8: Visceral systems" →
  ∀ c, c ∈ main_collections → P c.
Proof.
  intros H1 H4 H5 H7 H8 c Hc. unfold main_collections in Hc.
  repeat (apply elem_of_cons in Hc as [->|Hc]; [assumption|]).
  by apply elem_of_nil in Hc.
Qed.

(** [List.find] returns the first element that passes the test. *)
Lemma find_first {A} (p : A → bool) (l : list A) (x : A) :
  List.find p l = Some x →
  ∃ before after,
    l = before ++ x :: after ∧ p x = true ∧ Forall (λ y, p y = false) before.
Proof.
  induction l as [|y l IH]; [done|]. cbn [List.find].
  destruct (p y) eqn:Hy.
  - intros [= ->]. exists [], l. by repeat split.
  - intros (before & after & -> & Hx & Hb)%IH.
    exists (y :: before), after. repeat split; [done|]. by constructor.
Qed.

Lemma first_source_first (scene : gmap string (list BObject)) (n c : string) :
  first_source scene n = Some c →
  ∃ before after,
    main_collections = before ++ c :: after ∧
    collection_offers scene n c = true ∧
    Forall (λ c', collection_offers scene n c' = false) before.
Proof. apply find_first. Qed.

Lemma first_source_none (scene : gmap string (list BObject)) (n : string) :
  first_source scene n = None →
  Forall (λ c, collection_offers scene n c = false) main_collections.
Proof.
  intros Hf. apply Forall_forall. intros c Hc%list_elem_of_In.
  exact (find_none _ _ Hf c Hc).
Qed.

(** C3: on every scene the run ends normally, and every record carries
    one of the systems SKELETAL, MUSCULAR, NERVOUS and one of their three
    model paths; none carries one of the six other systems.  The three
    collection names 1: Skeletal system, 5: Cardiovascular system and
    8: Visceral systems contain no keyword of any of the nine sets, and are
    classified SKELETAL by default. *)
Theorem systems_in_output (scene : gmap string (list BObject)) :
  Forall (λ c,
      Forall (λ kws, any_in kws (combined_lower c "") = false) keyword_sets ∧
      determine_system c "" = "SKELETAL")
    ["1: Skeletal system"; "5: Cardiovascular system"; "8: Visceral systems"] ∧
  ∃ out : list PartRecord,
    extract_ontology scene = inr out ∧
    Forall (λ r,
        system r ∈ ["SKELETAL"; "MUSCULAR"; "NERVOUS"] ∧
        modelPath r ∈ ["/models/skeleton/skeleton-full.glb";
                       "/models/muscular/muscles-full.glb";
                       "/models/nervous/nervous-full.glb"] ∧
        system r ∉ ["CARDIOVASCULAR"; "RESPIRATORY"; "DIGESTIVE";
                    "URINARY"; "LYMPHATIC"; "INTEGUMENTARY"])
      out.
Proof.
  split.
  { repeat constructor; vm_compute; reflexivity. }
  eexists. split; [apply extract_ontology_ok|].
  apply outer_Forall; [|constructor].
  intros c n Hc. cbn [part_entry system modelPath]. revert c Hc.
  apply main_collections_cases;
    (split_and!; apply (bool_decide_unpack _); vm_compute; exact I).
Qed.

(** C5: on every scene the run ends normally and no display name occurs
    in two records.  For every display name [n]: when some main collection
    holds a mesh named [n], the records named [n] are exactly one, the
    entry built from the first such collection in traversal order (no
    collection before it in the list holds such a mesh); otherwise there is
    no record named [n]. *)
Theorem names_deduplicated (scene : gmap string (list BObject)) (n : string) :
  ∃ out : list PartRecord,
    extract_ontology scene = inr out ∧
    NoDup (map name out) ∧
    match first_source scene n with
    | Some c =>
        named n out = [part_entry (determine_system c "") n] ∧
        ∃ before after : list string,
          main_collections = before ++ c :: after ∧
          collection_offers scene n c = true ∧
          Forall (λ c', collection_offers scene n c' = false) before
    | None =>
        named n out = [] ∧
        Forall (λ c, collection_offers scene n c = false) main_collections
    end.
Proof.
  eexists. split; [apply extract_ontology_ok|].
  assert (∀ m, named m (ontology (foldl (collection_result scene)
                                        initial_state main_collections))
               = match first_source scene m with
                 | Some c => [part_entry (determine_system c "") m]
                 | None => []
                 end) as Hnamed.
  { intros m. rewrite outer_named. cbn [initial_state ontology processed_names].
    rewrite bool_decide_eq_false_2 by apply not_elem_of_empty. reflexivity. }
  split.
  { apply NoDup_names. intros m. rewrite Hnamed.
    destruct (first_source scene m); cbn; lia. }
  rewrite Hnamed. destruct (first_source scene n) as [c|] eqn:Hf.
  - split; [done|]. by apply first_source_first.
  - split; [done|]. by apply first_source_none.
Qed.

(** The example of the specification: Heart in two collections gives one
    record, from the first of them. *)
Example heart_once :
  first_source heart_scene "Heart" = Some "4: Muscular system" ∧
  ∃ out, extract_ontology heart_scene = inr out ∧
         map name out = ["Heart"; "Biceps"] ∧
         map system out = ["MUSCULAR"; "MUSCULAR"].
Proof.
  split; [vm_compute; reflexivity|].
  eexists. split; [vm_compute; reflexivity|]. by split.
Qed.

(** C8: [determine_system] is called once for each main collection present
    in the scene, in traversal order, each time with the empty string as
    object name; and the records that the iteration for a collection
    appends all carry the system and the model path computed from that
    collection's name alone. *)
Theorem one_classification_per_collection (scene : gmap string (list BObject)) :
  NoDup main_collections ∧
  (∃ st : LoopState,
     run_extraction scene = inr st ∧
     calls st =
       map (λ c, (c, "")) (List.filter (has_collection scene) main_collections)) ∧
  ∀ (st : LoopState) (c : string),
    ∃ (st' : LoopState) (new : list PartRecord),
      process_collection scene st c = inr st' ∧
      ontology st' = ontology st ++ new ∧
      Forall (λ r,
          system r = determine_system c "" ∧
          modelPath r = model_path (determine_system c ""))
        new.
Proof.
  split; [|split].
  - apply (bool_decide_unpack _). vm_compute. exact I.
  - eexists. split; [apply run_extraction_ok|].
    by rewrite outer_calls.
  - intros st c. destruct (step_appends scene st c) as (new & Hnew & Hall).
    exists (collection_result scene st c), new.
    split; [apply process_collection_ok|]. split; [exact Hnew|].
    eapply Forall_impl; [exact Hall|]. by intros r [n ->].
Qed.

(** C10: when a collection is absent from the scene the run still ends
    normally, and its records are those of the run over the remaining
    names of the list, and those of the run on the scene in which the
    absent collection is present and empty. *)
Theorem missing_collection_skipped (scene : gmap string (list BObject))
    (c : string) :
  scene !! c = None →
  ∃ out : list PartRecord,
    extract_ontology scene = inr out ∧
    extract_ontology (<[c := []]> scene) = inr out ∧
    ∃ st : LoopState,
      for_collections scene (filter (λ x, x ≠ c) main_collections) initial_state
        = inr st ∧
      ontology st = out.
Proof.
  intros Hc. eexists. split; [apply extract_ontology_ok|]. split.
  - rewrite extract_ontology_ok. f_equal. symmetry.
    by apply (outer_with_empty scene c main_collections).
  - eexists. split; [apply for_collections_ok|].
    by rewrite outer_without_absent.
Qed.

Lemma missing_collection_witness :
  skull_scene !! "4: Muscular system" = None ∧
  ∃ out : list PartRecord,
    extract_ontology skull_scene = inr out ∧
    extract_ontology (<["4: Muscular system" := []]> skull_scene) = inr out ∧
    ∃ st : LoopState,
      for_collections skull_scene
        (filter (λ x, x ≠ "4: Muscular system") main_collections) initial_state
        = inr st ∧
      ontology st = out.
Proof.
  split; [reflexivity|].
  apply (missing_collection_skipped skull_scene "4: Muscular system").
  reflexivity.
Defined.

(** * Further properties of the code *)

(** ** Classification and model paths *)

(** X6: SKELETAL is returned in two cases only: a skeletal keyword occurs
    in the combined text, or no keyword of any of the nine sets does.  Each
    of the eight other tags therefore reports a keyword that was found. *)
Theorem skeletal_iff (collection_name object_name : string) :
  determine_system collection_name object_name = "SKELETAL"
  ↔ any_in kw_skeletal (combined_lower collection_name object_name) = true
    ∨ Forall (λ kws,
          any_in kws (combined_lower collection_name object_name) = false)
        keyword_sets.
Proof.
  unfold determine_system, keyword_sets; cbv zeta.
  set (t := combined_lower collection_name object_name).
  destruct (any_in kw_skeletal t) eqn:H1; [by split; [left|]|].
  split.
  - intros H. right.
    destruct (any_in kw_muscular t) eqn:H2; [discriminate H|].
    destruct (any_in kw_nervous t) eqn:H3; [discriminate H|].
    destruct (any_in kw_cardiovascular t) eqn:H4; [discriminate H|].
    destruct (any_in kw_respiratory t) eqn:H5; [discriminate H|].
    destruct (any_in kw_digestive t) eqn:H6; [discriminate H|].
    destruct (any_in kw_urinary t) eqn:H7; [discriminate H|].
    destruct (any_in kw_lymphatic t) eqn:H8; [discriminate H|].
    destruct (any_in kw_integumentary t) eqn:H9; [discriminate H|].
    repeat constructor; assumption.
  - intros [H|H]; [discriminate H|].
    repeat (apply Forall_cons in H as [Hk H]; cbv beta in Hk;
            rewrite ?Hk; clear Hk).
    reflexivity.
Qed.

(** X7: a system that is not a key of [system_paths] gets the skeleton
    path; no lookup fails. *)
Theorem model_path_fallback (system : string) :
  system ∉ ["SKELETAL"; "MUSCULAR"; "CARDIOVASCULAR"; "NERVOUS";
            "RESPIRATORY"; "DIGESTIVE"] →
  model_path system = "/models/skeleton/skeleton-full.glb".
Proof.
  intros H. unfold model_path, system_paths.
  rewrite !not_elem_of_cons in H.
  destruct H as (? & ? & ? & ? & ? & ? & _).
  rewrite !lookup_insert_ne by done. by rewrite lookup_empty.
Qed.

Lemma model_path_fallback_witness :
  ("INTEGUMENTARY" ∉ ["SKELETAL"; "MUSCULAR"; "CARDIOVASCULAR"; "NERVOUS";
                      "RESPIRATORY"; "DIGESTIVE"]) ∧
  model_path "INTEGUMENTARY" = "/models/skeleton/skeleton-full.glb".
Proof.
  assert ("INTEGUMENTARY" ∉ ["SKELETAL"; "MUSCULAR"; "CARDIOVASCULAR";
                             "NERVOUS"; "RESPIRATORY"; "DIGESTIVE"]) as H.
  { apply (bool_decide_unpack _). vm_compute. exact I. }
  split; [exact H|]. apply (model_path_fallback "INTEGUMENTARY" H).
Defined.

(** ** What the traversal records, and in which order *)

Section Order.

Lemma mesh_names_cons (obj : BObject) (objects : list BObject) :
  mesh_names (obj :: objects)
  = if skipped obj then mesh_names objects
    else obj_name obj :: mesh_names objects.
Proof. unfold mesh_names. cbn [List.filter]. by destruct (skipped obj). Qed.

Ltac by_elements :=
  apply set_eq; intros ?;
  rewrite ?elem_of_union, ?elem_of_singleton;
  intuition (subst; auto).

Lemma first_occurrences_app (seen : gset string) (l1 l2 : list string) :
  first_occurrences seen (l1 ++ l2)
  = first_occurrences seen l1
    ++ first_occurrences (seen ∪ list_to_set l1) l2.
Proof.
  revert seen. induction l1 as [|x l1 IH]; intros seen.
  { cbn. by rewrite (right_id_L ∅ (∪)). }
  cbn [app first_occurrences list_to_set]. case_bool_decide as Hx.
  - rewrite IH. do 2 f_equal. by_elements.
  - cbn [app]. rewrite IH. do 3 f_equal. by_elements.
Qed.

Lemma first_occurrences_spec (seen : gset string) (l : list string) :
  NoDup (first_occurrences seen l) ∧
  ∀ x, x ∈ first_occurrences seen l ↔ x ∈ l ∧ x ∉ seen.
Proof.
  revert seen. induction l as [|y l IH]; intros seen.
  { split; [constructor|]. intros x. cbn. rewrite elem_of_nil. tauto. }
  cbn [first_occurrences]. case_bool_decide as Hy.
  - destruct (IH seen) as [Hnd Hin]. split; [done|].
    intros x. rewrite Hin, elem_of_cons. intuition (subst; tauto).
  - destruct (IH (seen ∪ {[ y ]})) as [Hnd Hin]. split.
    + constructor; [|done]. rewrite Hin. intros [_ H]. apply H.
      apply elem_of_union. right. by apply elem_of_singleton.
    + intros x.
      rewrite !elem_of_cons, Hin, elem_of_union, elem_of_singleton.
      destruct (decide (x = y)) as [->|Hxy]; tauto.
Qed.

Variable system_of_collection : string.

Lemma inner_names (objects : list BObject) (st : LoopState) :
  map name (ontology (foldl (process_object system_of_collection) st objects))
  = map name (ontology st)
    ++ first_occurrences (processed_names st) (mesh_names objects) ∧
  processed_names (foldl (process_object system_of_collection) st objects)
  = processed_names st ∪ list_to_set (mesh_names objects).
Proof.
  revert st. induction objects as [|obj objects IH]; intros st.
  { cbn. by rewrite app_nil_r, (right_id_L ∅ (∪)). }
  cbn [foldl]. destruct (IH (process_object system_of_collection st obj))
    as [-> ->].
  rewrite mesh_names_cons.
  destruct (process_object_cases system_of_collection st obj)
    as [(Hs & ->) | [(Hs & Hin & ->) | (Hs & Hnin & ->)]]; rewrite Hs.
  - done.
  - cbn [first_occurrences list_to_set].
    rewrite bool_decide_eq_true_2 by done. split; [done|]. by_elements.
  - cbn [first_occurrences list_to_set ontology processed_names].
    rewrite bool_decide_eq_false_2 by done.
    rewrite map_app, <- app_assoc. split; [done|]. by_elements.
Qed.

Lemma inner_skipped (objects : list BObject) (st : LoopState) :
  foldl (process_object system_of_collection) st
        (List.filter (λ obj, negb (skipped obj)) objects)
  = foldl (process_object system_of_collection) st objects.
Proof.
  revert st. induction objects as [|obj objects IH]; intros st; [done|].
  cbn [List.filter foldl].
  destruct (skipped obj) eqn:Hs; cbn [negb foldl]; rewrite IH; [|done].
  f_equal. unfold process_object. by rewrite Hs.
Qed.

End Order.

Lemma offers_elim (objects : list BObject) (n : string) :
  offers objects n = true →
  ∃ obj, obj ∈ objects ∧ obj_type obj = "MESH" ∧ obj_name obj = n ∧ n ≠ "".
Proof.
  unfold offers. intros (obj & Hin & Hobj)%existsb_exists.
  apply andb_prop in Hobj as [Hs Hn]. apply String.eqb_eq in Hn as <-.
  unfold skipped in Hs. apply negb_true_iff, orb_false_elim in Hs as [Ht He].
  apply negb_false_iff, String.eqb_eq in Ht. apply String.eqb_neq in He.
  exists obj. by rewrite list_elem_of_In.
Qed.

Lemma step_names (scene : gmap string (list BObject)) (st : LoopState)
    (c : string) :
  map name (ontology (collection_result scene st c))
  = map name (ontology st)
    ++ first_occurrences (processed_names st) (scene_mesh_names scene c) ∧
  processed_names (collection_result scene st c)
  = processed_names st ∪ list_to_set (scene_mesh_names scene c).
Proof.
  unfold collection_result, scene_mesh_names.
  destruct (scene !! c) as [objects|].
  - apply (inner_names _ objects (record_call c "" st)).
  - cbn. by rewrite app_nil_r, (right_id_L ∅ (∪)).
Qed.

Lemma outer_names (scene : gmap string (list BObject)) (names : list string)
    (st : LoopState) :
  map name (ontology (foldl (collection_result scene) st names))
  = map name (ontology st)
    ++ first_occurrences (processed_names st)
         (flat_map (scene_mesh_names scene) names) ∧
  processed_names (foldl (collection_result scene) st names)
  = processed_names st
    ∪ list_to_set (flat_map (scene_mesh_names scene) names).
Proof.
  revert st. induction names as [|c names IH]; intros st.
  { cbn. by rewrite app_nil_r, (right_id_L ∅ (∪)). }
  cbn [foldl flat_map]. destruct (IH (collection_result scene st c)) as [-> ->].
  destruct (step_names scene st c) as [-> ->].
  rewrite first_occurrences_app, <- app_assoc, list_to_set_app_L.
  split; [done|]. by rewrite (assoc_L (∪)).
Qed.

Lemma outer_agree (scene1 scene2 : gmap string (list BObject))
    (names : list string) (st : LoopState) :
  (∀ c, c ∈ names → scene1 !! c = scene2 !! c) →
  foldl (collection_result scene1) st names
  = foldl (collection_result scene2) st names.
Proof.
  revert st. induction names as [|c names IH]; intros st H; [done|].
  cbn [foldl].
  assert (collection_result scene1 st c = collection_result scene2 st c) as ->.
  { unfold collection_result. rewrite (H c) by (by left). done. }
  apply IH. intros c' Hc'. apply H. by right.
Qed.

(** X8: every record of the output is the entry of a mesh object with a
    non-empty name held by a main collection of the scene, built with the
    system of that collection's name; nothing else is ever recorded. *)
Theorem every_record_is_a_mesh (scene : gmap string (list BObject)) :
  ∃ out : list PartRecord,
    extract_ontology scene = inr out ∧
    Forall (λ r,
        ∃ (c : string) (objects : list BObject) (obj : BObject),
          c ∈ main_collections ∧
          scene !! c = Some objects ∧
          obj ∈ objects ∧
          obj_type obj = "MESH" ∧
          obj_name obj = name r ∧
          name r ≠ "" ∧
          r = part_entry (determine_system c "") (name r))
      out.
Proof.
  eexists. split; [apply extract_ontology_ok|].
  apply Forall_forall. intros r Hr.
  assert (r ∈ named (name r)
                (ontology (foldl (collection_result scene) initial_state
                                 main_collections))) as Hn.
  { unfold named. by apply list_elem_of_filter. }
  rewrite outer_named in Hn. cbn [initial_state ontology processed_names] in Hn.
  rewrite bool_decide_eq_false_2 in Hn by apply not_elem_of_empty.
  cbn [named app] in Hn. unfold named in Hn. rewrite filter_nil in Hn.
  cbn [app] in Hn.
  fold (first_source scene (name r)) in Hn.
  destruct (first_source scene (name r)) as [c|] eqn:Hf;
    [|by apply elem_of_nil in Hn].
  apply list_elem_of_singleton in Hn.
  destruct (first_source_first scene _ _ Hf) as (before & after & Hm & Ho & _).
  unfold collection_offers in Ho.
  destruct (scene !! c) as [objects|] eqn:Hc; [|discriminate Ho].
  destruct (offers_elim _ _ Ho) as (obj & Hobj & Ht & Hname & Hne).
  exists c, objects, obj. repeat split; try done.
  rewrite Hm. apply elem_of_app. right. by left.
Qed.

(** X9: the names of the output, in order, are the mesh names of the five
    main collections in traversal order, each kept at its first occurrence
    only. *)
Theorem output_order (scene : gmap string (list BObject)) :
  ∃ out : list PartRecord,
    extract_ontology scene = inr out ∧
    map name out
    = first_occurrences ∅ (flat_map (scene_mesh_names scene) main_collections).
Proof.
  eexists. split; [apply extract_ontology_ok|].
  by destruct (outer_names scene main_collections initial_state) as [-> _].
Qed.

(** X10: when the traversal ends, [processed_names] is the set of the names
    of the records, and it has as many elements as there are records: the
    count of the progress messages is the count of the parts. *)
Theorem processed_names_are_the_records (scene : gmap string (list BObject)) :
  ∃ st : LoopState,
    run_extraction scene = inr st ∧
    processed_names st = list_to_set (map name (ontology st)) ∧
    size (processed_names st) = length (ontology st).
Proof.
  eexists. split; [apply run_extraction_ok|].
  destruct (outer_names scene main_collections initial_state) as [Hn Hp].
  set (l := flat_map (scene_mesh_names scene) main_collections) in *.
  cbn [initial_state ontology processed_names map app] in Hn, Hp.
  destruct (first_occurrences_spec ∅ l) as [Hnd Hin].
  rewrite Hp, Hn. split.
  - apply set_eq. intros x.
    rewrite elem_of_union, !elem_of_list_to_set, Hin.
    pose proof (not_elem_of_empty (C:=gset string) x). tauto.
  - rewrite <- (length_map name), Hn, <- (size_list_to_set (C:=gset string))
      by done.
    f_equal. apply set_eq. intros x.
    rewrite elem_of_union, !elem_of_list_to_set, Hin.
    pose proof (not_elem_of_empty (C:=gset string) x). tauto.
Qed.

(** X11: the run reads the five main collections only: two scenes that
    agree on them end in the same state and give the same output. *)
Theorem only_main_collections_read (scene1 scene2 : gmap string (list BObject)) :
  (∀ c, c ∈ main_collections → scene1 !! c = scene2 !! c) →
  run_extraction scene1 = run_extraction scene2 ∧
  extract_ontology scene1 = extract_ontology scene2.
Proof.
  intros H. rewrite !extract_ontology_ok, !run_extraction_ok.
  by rewrite (outer_agree scene1 scene2 main_collections initial_state H).
Qed.

Lemma only_main_collections_witness :
  (∀ c, c ∈ main_collections →
        skull_scene !! c
        = (<["0: Helpers" := [mkObject "MESH" "Cube"]]> skull_scene) !! c) ∧
  run_extraction skull_scene
  = run_extraction (<["0: Helpers" := [mkObject "MESH" "Cube"]]> skull_scene) ∧
  extract_ontology skull_scene
  = extract_ontology (<["0: Helpers" := [mkObject "MESH" "Cube"]]> skull_scene).
Proof.
  assert (∀ c, c ∈ main_collections →
            skull_scene !! c
            = (<["0: Helpers" := [mkObject "MESH" "Cube"]]> skull_scene) !! c)
    as H.
  { apply main_collections_cases; vm_compute; reflexivity. }
  split; [exact H|].
  apply (only_main_collections_read skull_scene _ H).
Defined.

(** X12: objects that are not meshes and objects without a name leave no
    trace: removing them from every collection changes neither the final
    state nor the output. *)
Theorem skipped_objects_leave_no_trace (scene : gmap string (list BObject)) :
  run_extraction (List.filter (λ obj, negb (skipped obj)) <$> scene)
  = run_extraction scene ∧
  extract_ontology (List.filter (λ obj, negb (skipped obj)) <$> scene)
  = extract_ontology scene.
Proof.
  rewrite !extract_ontology_ok, !run_extraction_ok.
  assert (∀ names st,
             foldl (collection_result
                      (List.filter (λ obj, negb (skipped obj)) <$> scene))
                   st names
             = foldl (collection_result scene) st names) as H.
  { induction names as [|c names IH]; intros st; [done|].
    cbn [foldl]. rewrite <- IH. f_equal.
    unfold collection_result. rewrite lookup_fmap.
    destruct (scene !! c) as [objects|]; [|done].
    cbn [fmap option_fmap option_map]. apply inner_skipped. }
  by rewrite H.
Qed.

Example heart_scene_order :
  first_occurrences ∅ (flat_map (scene_mesh_names heart_scene) main_collections)
  = ["Heart"; "Biceps"].
Proof. vm_compute. reflexivity. Qed.

(** ** The statistics *)

Section Statistics.

Lemma count_part_lookup (m : gmap string nat) (r : PartRecord) (s : string) :
  count_part m r !! s
  = if decide (system r = s) then Some (default 0 (m !! s) + 1) else m !! s.
Proof.
  unfold count_part; cbv zeta. case_decide as Hs.
  - subst s. by rewrite lookup_insert_eq.
  - by rewrite lookup_insert_ne.
Qed.

Lemma count_lookup (l : list PartRecord) (m : gmap string nat) (s : string) :
  foldl count_part m l !! s
  = if decide (length (filter (λ r, system r = s) l) = 0) then m !! s
    else Some (default 0 (m !! s) + length (filter (λ r, system r = s) l)).
Proof.
  revert m. induction l as [|r l IH]; intros m; [done|].
  cbn [foldl]. rewrite IH, count_part_lookup.
  destruct (decide (system r = s)) as [Hs|Hs].
  - rewrite filter_cons_True by done. cbn [length default].
    rewrite (decide_False (P := S _ = 0)) by lia.
    case_decide as Hk; [by rewrite Hk|]. unfold id. f_equal. lia.
  - by rewrite filter_cons_False.
Qed.

Lemma total_count_insert_fresh (m : gmap string nat) (s : string) (k : nat) :
  m !! s = None → total_count (<[s := k]> m) = k + total_count m.
Proof.
  intros H. unfold total_count.
  rewrite map_fold_insert_L; [done| |done]. intros; lia.
Qed.

Lemma total_count_count_part (m : gmap string nat) (r : PartRecord) :
  total_count (count_part m r) = S (total_count m).
Proof.
  unfold count_part; cbv zeta.
  destruct (m !! system r) as [k|] eqn:Hk; cbn [default].
  - pose proof (total_count_insert_fresh (delete (system r) m) (system r)
                  (k + 1) (lookup_delete_eq _ _)) as H1.
    pose proof (total_count_insert_fresh (delete (system r) m) (system r)
                  k (lookup_delete_eq _ _)) as H2.
    rewrite insert_delete_eq in H1.
    rewrite insert_delete_id in H2 by done. unfold id. lia.
  - by rewrite total_count_insert_fresh.
Qed.

Lemma total_count_foldl (l : list PartRecord) (m : gmap string nat) :
  total_count (foldl count_part m l) = total_count m + length l.
Proof.
  revert m. induction l as [|r l IH]; intros m; cbn [foldl length]; [lia|].
  rewrite IH, total_count_count_part. lia.
Qed.

End Statistics.

(** X13: after the statistics loop the dictionary holds, for each system,
    the number of records with that system, and has no entry for a system
    without records. *)
Theorem parts_by_system_counts (ontology : list PartRecord) (s : string) :
  parts_by_system ontology !! s
  = if decide (length (filter (λ r, system r = s) ontology) = 0) then None
    else Some (length (filter (λ r, system r = s) ontology)).
Proof.
  unfold parts_by_system. rewrite count_lookup, lookup_empty.
  by case_decide.
Qed.

(** X14: the counts printed by system add up to the number of parts. *)
Theorem parts_by_system_total (ontology : list PartRecord) :
  total_count (parts_by_system ontology) = length ontology.
Proof.
  unfold parts_by_system. rewrite total_count_foldl.
  unfold total_count. by rewrite map_fold_empty.
Qed.

(** ** Synonyms *)

Section Replace.

Lemma length_append (s t : string) :
  String.length (s +:+ t) = String.length s + String.length t.
Proof.
  induction s as [|c s IH]; [done|].
  change (String c s +:+ t) with (String c (s +:+ t)).
  cbn [String.length]. by rewrite IH.
Qed.

Lemma prefix_length (s t : string) :
  String.prefix s t = true → String.length s ≤ String.length t.
Proof.
  revert t. induction s as [|a s IH]; intros t; [cbn; lia|].
  destruct t as [|b t]; [done|]. cbn [String.prefix String.length].
  destruct (ascii_dec a b); [|done]. intros H%IH. lia.
Qed.

Variables (a : ascii) (old' new : string).

Let old := String a old'.

Lemma replace_from_cons (c : ascii) (s : string) :
  Str.replace_from old new 0 (String c s)
  = if String.prefix old (String c s)
    then new +:+ Str.replace_from old new (String.length old') s
    else String c (Str.replace_from old new 0 s).
Proof. reflexivity. Qed.

(** A replacement by a string that is not longer does not lengthen. *)
Lemma replace_from_length (s : string) (skip : nat) :
  String.length new ≤ String.length old →
  String.length (Str.replace_from old new skip s) ≤ String.length s - skip.
Proof.
  intros Hnew. revert skip. induction s as [|c s IH]; intros skip.
  { cbn. lia. }
  destruct skip as [|k].
  - rewrite replace_from_cons.
    destruct (String.prefix old (String c s)) eqn:Hp.
    + apply prefix_length in Hp. rewrite length_append.
      specialize (IH (String.length old')).
      cbn [String.length] in *. unfold old in *. cbn [String.length] in *. lia.
    + specialize (IH 0). cbn [String.length]. lia.
  - cbn [Str.replace_from String.length]. specialize (IH k). lia.
Qed.

(** A replacement by a shorter string shortens a string in which the old
    one occurs. *)
Lemma replace_shortens (s : string) :
  String.length new < String.length old →
  Str.contains old s = true →
  String.length (Str.replace old new s) < String.length s.
Proof.
  intros Hnew. unfold Str.replace. induction s as [|c s IH].
  { cbn. discriminate. }
  rewrite replace_from_cons. cbn [Str.contains].
  destruct (String.prefix old (String c s)) eqn:Hp.
  - intros _. apply prefix_length in Hp. rewrite length_append.
    pose proof (replace_from_length s (String.length old')) as Hl.
    unfold old in *. cbn [String.length] in *. lia.
  - cbn [orb]. intros H%IH. cbn [String.length]. lia.
Qed.

End Replace.

(** X15: a part has one synonym, or two.  The first is the lowercased name
    at priority 10.  A second one is there exactly when the lowercased name
    contains left or right; it has priority 8 and is strictly shorter than
    the first, so the two never coincide.  All are in language en. *)
Theorem synonyms_shape (obj_name : string) :
  (Str.contains "left" (Str.lower obj_name) = false ∧
   Str.contains "right" (Str.lower obj_name) = false ∧
   make_synonyms obj_name = [mkSynonym (Str.lower obj_name) "en" 10])
  ∨ (∃ variant : string,
       (Str.contains "left" (Str.lower obj_name) = true
        ∨ Str.contains "right" (Str.lower obj_name) = true) ∧
       make_synonyms obj_name =
         [mkSynonym (Str.lower obj_name) "en" 10; mkSynonym variant "en" 8] ∧
       String.length variant < String.length (Str.lower obj_name)).
Proof.
  unfold make_synonyms; cbv zeta.
  destruct (Str.contains "left" (Str.lower obj_name)) eqn:Hl;
    [|destruct (Str.contains "right" (Str.lower obj_name)) eqn:Hr].
  - right. eexists. split; [by left|]. split; [reflexivity|].
    pose proof (replace_shortens "l" "eft" "l" (Str.lower obj_name)) as H1.
    pose proof (replace_from_length "." "l" ""
                  (Str.replace "left" "l" (Str.lower obj_name)) 0) as H2.
    unfold Str.replace at 1. cbn [String.length] in *.
    specialize (H1 ltac:(lia) Hl). specialize (H2 ltac:(lia)). lia.
  - right. eexists. split; [by right|]. split; [reflexivity|].
    pose proof (replace_shortens "r" "ight" "r" (Str.lower obj_name)) as H1.
    pose proof (replace_from_length "." "r" ""
                  (Str.replace "right" "r" (Str.lower obj_name)) 0) as H2.
    unfold Str.replace at 1. cbn [String.length] in *.
    specialize (H1 ltac:(lia) Hr). specialize (H2 ltac:(lia)). lia.
  - left. done.
Qed.

(** ** The exporter's paths *)

(** X16: the seventeen output paths that [main] of the export script
    computes are pairwise distinct, whatever the output directory: no
    export overwrites the file of another. *)
Theorem main_output_paths_distinct (OUTPUT_DIR : string) :
  length (main_output_paths OUTPUT_DIR) = 17 ∧
  NoDup (main_output_paths OUTPUT_DIR).
Proof.
  split; [reflexivity|].
  change (main_output_paths OUTPUT_DIR)
    with (String.append OUTPUT_DIR <$> main_output_paths "").
  apply (NoDup_fmap_2 _). apply (bool_decide_unpack _). vm_compute. exact I.
Qed.

(** X17: for the collections 1, 4 and 7 the model path that the extractor
    gives to the parts of the collection names, under /models, the file in
    which the exporter writes that collection; for the collections 5 and 8
    it names the skeleton file instead. *)
Theorem model_paths_and_exports :
  map (λ row, bool_decide (model_path (determine_system row.1.1 "")
                           = high_path "/models" row))
      export_systems
  = [true; true; false; true; false] ∧
  Forall (λ c, model_path (determine_system c "")
               = "/models/skeleton/skeleton-full.glb")
    ["5: Cardiovascular system"; "8: Visceral systems"] ∧
  map (λ row, row.1.1) export_systems = main_collections.
Proof.
  split; [vm_compute; reflexivity|]. split; [|reflexivity].
  repeat constructor; vm_compute; reflexivity.
Qed.

(** ** The grouping by type of the inspection script *)

Section Grouping.

Lemma group_object_lookup (m : gmap string (list string)) (obj : BObject)
    (t : string) :
  group_object m obj !! t
  = if decide (obj_type obj = t)
    then Some (default [] (m !! t) ++ [obj_name obj])
    else m !! t.
Proof.
  unfold group_object; cbv zeta. case_decide as Ht.
  - subst t. rewrite lookup_alter_eq. case_bool_decide as Hm.
    + destruct Hm as [l Hl]. by rewrite Hl.
    + rewrite lookup_insert_eq.
      destruct (m !! obj_type obj) eqn:Hl; [|done].
      exfalso. apply Hm. by eexists.
  - rewrite lookup_alter_ne by done.
    case_bool_decide; [done|]. by rewrite lookup_insert_ne.
Qed.

Lemma names_of_type_cons (t : string) (obj : BObject) (objects : list BObject) :
  names_of_type t (obj :: objects)
  = if decide (obj_type obj = t)
    then obj_name obj :: names_of_type t objects
    else names_of_type t objects.
Proof.
  unfold names_of_type. case_decide.
  - by rewrite filter_cons_True.
  - by rewrite filter_cons_False.
Qed.

Lemma group_lookup (objects : list BObject) (m : gmap string (list string))
    (t : string) :
  foldl group_object m objects !! t
  = match m !! t with
    | Some l => Some (l ++ names_of_type t objects)
    | None =>
        match names_of_type t objects with
        | [] => None
        | l => Some l
        end
    end.
Proof.
  revert m. induction objects as [|obj objects IH]; intros m.
  { cbn. destruct (m !! t); by rewrite ?app_nil_r. }
  cbn [foldl]. rewrite IH, group_object_lookup, names_of_type_cons.
  case_decide; [|done].
  destruct (m !! t); cbn [default app]; by rewrite <- ?app_assoc.
Qed.

End Grouping.

(** X18: the dictionary built by the inspection script holds, under each
    type, the names of the objects of that type in the order of the file,
    and has no entry for a type without objects. *)
Theorem group_by_type_lookup (objects : list BObject) (t : string) :
  group_by_type objects !! t
  = match names_of_type t objects with
    | [] => None
    | l => Some l
    end.
Proof. unfold group_by_type. by rewrite group_lookup, lookup_empty. Qed.

(** ** The statistics of a run *)

(** X19: for every scene, the statistics of the output have entries for
    SKELETAL, MUSCULAR and NERVOUS at most, and their counts add up to the
    number of names processed. *)
Theorem statistics_of_a_run (scene : gmap string (list BObject)) :
  ∃ st : LoopState,
    run_extraction scene = inr st ∧
    dom (parts_by_system (ontology st))
      ⊆ list_to_set ["SKELETAL"; "MUSCULAR"; "NERVOUS"] ∧
    total_count (parts_by_system (ontology st)) = size (processed_names st).
Proof.
  eexists. split; [apply run_extraction_ok|].
  set (st := foldl (collection_result scene) initial_state main_collections).
  split.
  - assert (Forall (λ r, system r ∈ ["SKELETAL"; "MUSCULAR"; "NERVOUS"])
              (ontology st)) as Hsys.
    { apply outer_Forall; [|constructor].
      intros c n Hc. cbn [part_entry system]. revert c Hc.
      apply main_collections_cases;
        (apply (bool_decide_unpack _); vm_compute; exact I). }
    intros s [k Hk]%elem_of_dom. apply elem_of_list_to_set.
    unfold parts_by_system in Hk. rewrite count_lookup, lookup_empty in Hk.
    case_decide as Hlen; [discriminate Hk|].
    destruct (filter (λ r, system r = s) (ontology st)) as [|r l] eqn:Hf;
      [done|].
    assert (r ∈ filter (λ r, system r = s) (ontology st)) as Hr
      by (rewrite Hf; by left).
    apply list_elem_of_filter in Hr as [<- Hr].
    by apply (proj1 (Forall_forall _ _) Hsys).
  - destruct (outer_names scene main_collections initial_state) as [Hn Hp].
    fold st in Hn, Hp.
    destruct (first_occurrences_spec ∅
                (flat_map (scene_mesh_names scene) main_collections))
      as [Hnd Hin].
    cbn [initial_state ontology processed_names map app] in Hn, Hp.
    assert (total_count (parts_by_system (ontology st)) = length (ontology st))
      as ->.
    { unfold parts_by_system. rewrite total_count_foldl.
      unfold total_count. by rewrite map_fold_empty. }
    rewrite <- (length_map name), Hn, Hp.
    rewrite <- (size_list_to_set (C:=gset string)) by done.
    f_equal. apply set_eq. intros x.
    rewrite elem_of_union, !elem_of_list_to_set, Hin.
    pose proof (not_elem_of_empty (C:=gset string) x). tauto.
Qed.

(** * Names of arbitrary code points *)

(** ** Lowering *)

Section UnicodeLower.

Import Unicode.

Variable T : Tables.

Lemma lower_lower_char (a : ascii) : Char.lower (Char.lower a) = Char.lower a.
Proof. destruct a as [[] [] [] [] [] [] [] []]; reflexivity. Qed.

Lemma code_bounded (a : ascii) : (Char.code a < 256)%N.
Proof. apply N_ascii_bounded. Qed.

Lemma latin1_code (a : ascii) : latin1 (Char.code a) = true.
Proof. apply N.ltb_lt, code_bounded. Qed.

Lemma ascii_of_code (a : ascii) : ascii_of_N (Char.code a) = a.
Proof. apply ascii_N_embedding. Qed.

Lemma not_sigma_code (a : ascii) : (Char.code a =? capital_sigma)%N = false.
Proof.
  apply N.eqb_neq. pose proof (code_bounded a). unfold capital_sigma. lia.
Qed.

Lemma lower_one_code (a : ascii) :
  lower_one T (Char.code a) = [Char.code (Char.lower a)].
Proof. unfold lower_one. by rewrite latin1_code, ascii_of_code. Qed.

Lemma stable_lower_code (a : ascii) : stable T (Char.code (Char.lower a)).
Proof.
  split.
  - pose proof (code_bounded (Char.lower a)). unfold capital_sigma. lia.
  - by rewrite lower_one_code, lower_lower_char.
Qed.

Lemma stable_underscore : stable T underscore.
Proof. split; [done|reflexivity]. Qed.

Lemma stable_space : stable T space.
Proof. split; [done|reflexivity]. Qed.

Lemma stable_lower_at (d : N) (before after : list N) :
  stable T d → lower_at T before after d = [d].
Proof.
  intros [Hd Hl]. unfold lower_at.
  by rewrite (proj2 (N.eqb_neq _ _) Hd).
Qed.

(** A string of stable code points is its own lower case. *)
Lemma lower_from_fixed (s before : list N) :
  Forall (stable T) s → lower_from T before s = s.
Proof.
  revert before. induction s as [|c s IH]; intros before Hs; [done|].
  apply Forall_cons in Hs as [Hc Hs]. cbn [lower_from].
  by rewrite (stable_lower_at c _ _ Hc), (IH _ Hs).
Qed.

Hypothesis tables_stable : lowercase_stable T.

Lemma lower_at_stable (before after : list N) (c : N) :
  Forall (stable T) (lower_at T before after c).
Proof.
  destruct tables_stable as (Hfull & Hfinal & Hsmall).
  unfold lower_at. destruct (c =? capital_sigma)%N.
  { constructor; [|constructor]. by destruct (final_sigma T before after). }
  unfold lower_one. destruct (latin1 c) eqn:Hc.
  - constructor; [|constructor]. apply stable_lower_code.
  - apply Forall_forall. intros d Hd. apply (Hfull c d); [|done].
    by apply N.ltb_ge in Hc.
Qed.

(** Lowering yields stable code points only. *)
Lemma lower_from_stable (s before : list N) :
  Forall (stable T) (lower_from T before s).
Proof.
  revert before. induction s as [|c s IH]; intros before; [constructor|].
  cbn [lower_from]. apply Forall_app. split; [apply lower_at_stable|apply IH].
Qed.

Lemma lower_lower (s : list N) : lower T (lower T s) = lower T s.
Proof. apply lower_from_fixed, lower_from_stable. Qed.

End UnicodeLower.

(** ** The steps of normalisation *)

Section UnicodeNormalise.

Import Unicode.

Variable T : Tables.

Lemma underscore_word : re_word T underscore = true.
Proof. reflexivity. Qed.

Lemma underscore_not_separator : separator T underscore = false.
Proof. reflexivity. Qed.

Lemma kept_not_separator_word (c : N) :
  kept T c = true → separator T c = false → re_word T c = true.
Proof.
  unfold kept, separator.
  destruct (re_word T c), (re_space T c), (c =? hyphen)%N; done.
Qed.

(** What the second and third step let through. *)
Lemma collapse_Forall (P : N → Prop) (in_run : bool) (s : list N) :
  P underscore → Forall P s →
  Forall P (collapse_from T in_run (remove_special T s)).
Proof.
  intros HU. revert in_run.
  induction s as [|c s IH]; intros in_run Hs; [constructor|].
  apply Forall_cons in Hs as [Hc Hs]. cbn [remove_special].
  destruct (kept T c); [|by apply IH]. cbn [collapse_from].
  destruct (separator T c).
  - destruct in_run; [|constructor; [done|]]; by apply IH.
  - constructor; [done|]. by apply IH.
Qed.

Lemma collapse_word (in_run : bool) (s : list N) :
  Forall (λ d, re_word T d = true ∧ separator T d = false)
         (collapse_from T in_run (remove_special T s)).
Proof.
  revert in_run. induction s as [|c s IH]; intros in_run; [constructor|].
  cbn [remove_special]. destruct (kept T c) eqn:Hk; [|apply IH].
  cbn [collapse_from]. destruct (separator T c) eqn:Hs.
  - destruct in_run; [apply IH|]. constructor; [|apply IH].
    split; [apply underscore_word|apply underscore_not_separator].
  - constructor; [|apply IH]. split; [|done].
    by apply kept_not_separator_word.
Qed.

Lemma lstrip_Forall (P : N → Prop) (s : list N) :
  Forall P s → Forall P (lstrip_underscore s).
Proof.
  induction s as [|c s IH]; [done|]. intros H. cbn [lstrip_underscore].
  destruct (c =? underscore)%N; [|done].
  apply IH. by apply Forall_cons in H as [_ ?].
Qed.

Lemma rstrip_Forall (P : N → Prop) (s : list N) :
  Forall P s → Forall P (rstrip_underscore s).
Proof.
  induction s as [|c s IH]; [done|]. intros [Hc Hs]%Forall_cons.
  specialize (IH Hs). cbn [rstrip_underscore].
  destruct (rstrip_underscore s) as [|d r].
  - destruct (c =? underscore)%N; by repeat constructor.
  - by constructor.
Qed.

Lemma normalize_Forall (P : N → Prop) (name : list N) :
  P underscore → Forall P (lower T name) →
  Forall P (normalize_part_id T name).
Proof.
  intros HU Hl. unfold normalize_part_id, strip_underscore, collapse_separators.
  by apply rstrip_Forall, lstrip_Forall, collapse_Forall.
Qed.

Lemma normalize_word (name : list N) :
  Forall (λ d, re_word T d = true ∧ separator T d = false)
         (normalize_part_id T name).
Proof.
  unfold normalize_part_id, strip_underscore, collapse_separators.
  apply rstrip_Forall, lstrip_Forall, collapse_word.
Qed.

(** On word characters that are no separators the second and third step
    do nothing. *)
Lemma remove_special_fixed (s : list N) :
  Forall (λ d, re_word T d = true ∧ separator T d = false) s →
  remove_special T s = s.
Proof.
  induction s as [|c s IH]; [done|]. intros [[Hw _] Hs]%Forall_cons.
  cbn [remove_special]. unfold kept. by rewrite Hw, (IH Hs).
Qed.

Lemma collapse_fixed (s : list N) :
  Forall (λ d, re_word T d = true ∧ separator T d = false) s →
  collapse_separators T s = s.
Proof.
  unfold collapse_separators.
  induction s as [|c s IH]; [done|]. intros [[_ Hc] Hs]%Forall_cons.
  cbn [collapse_from]. by rewrite Hc, (IH Hs).
Qed.

(** Stripping twice is stripping once. *)
Lemma rstrip_rstrip (s : list N) :
  rstrip_underscore (rstrip_underscore s) = rstrip_underscore s.
Proof.
  induction s as [|c s IH]; [done|]. cbn [rstrip_underscore].
  destruct (rstrip_underscore s) as [|d r] eqn:Hr.
  - destruct (c =? underscore)%N eqn:Hc; [done|].
    cbn [rstrip_underscore]. by rewrite Hc.
  - remember (d :: r) as t. cbn [rstrip_underscore].
    rewrite IH. by subst t.
Qed.

Lemma lstrip_rstrip_lstrip (s : list N) :
  lstrip_underscore (rstrip_underscore (lstrip_underscore s))
  = rstrip_underscore (lstrip_underscore s).
Proof.
  induction s as [|c s IH]; [done|]. cbn [lstrip_underscore].
  destruct (c =? underscore)%N eqn:Hc; [exact IH|].
  cbn [rstrip_underscore].
  destruct (rstrip_underscore s); rewrite ?Hc;
    cbn [lstrip_underscore]; by rewrite Hc.
Qed.

Lemma strip_strip (s : list N) :
  strip_underscore (strip_underscore s) = strip_underscore s.
Proof.
  unfold strip_underscore. by rewrite lstrip_rstrip_lstrip, rstrip_rstrip.
Qed.

(** Stripping and the ends of a string. *)
Lemma lstrip_head (s : list N) : head (lstrip_underscore s) ≠ Some underscore.
Proof.
  induction s as [|c s IH]; [done|]. cbn [lstrip_underscore].
  destruct (N.eqb_spec c underscore); [exact IH|].
  cbn. congruence.
Qed.

Lemma rstrip_head (s : list N) :
  head s ≠ Some underscore → head (rstrip_underscore s) ≠ Some underscore.
Proof.
  destruct s as [|c s]; [done|]. cbn [rstrip_underscore]. intros Hc.
  destruct (rstrip_underscore s); [|exact Hc].
  by destruct (c =? underscore)%N.
Qed.

Lemma rstrip_last (s : list N) : last (rstrip_underscore s) ≠ Some underscore.
Proof.
  induction s as [|c s IH]; [done|]. cbn [rstrip_underscore].
  destruct (rstrip_underscore s) as [|d r].
  - destruct (N.eqb_spec c underscore); [done|]. cbn. congruence.
  - exact IH.
Qed.




End UnicodeNormalise.

(** ** The sample tables obey the laws *)

Lemma sample_tables_stable : Unicode.lowercase_stable Unicode.sample_tables.
Proof.
  split; [|split; (split; [done|reflexivity])].
  intros c d Hc Hd.
  assert (∀ e, (256 ≤ e)%N → (e < 913 ∨ 939 < e)%N → e ≠ 304%N →
               Unicode.stable Unicode.sample_tables e) as Hid.
  { intros e He Hout H304. split; [unfold Unicode.capital_sigma; lia|].
    unfold Unicode.lower_one, Unicode.latin1. cbn.
    rewrite (proj2 (N.ltb_ge _ _) He), (proj2 (N.eqb_neq _ _) H304).
    destruct Hout as [Hlo|Hhi].
    - by rewrite (proj2 (N.leb_gt _ _) Hlo).
    - by rewrite (proj2 (N.leb_gt _ _) Hhi), andb_false_r. }
  cbn in Hd. destruct (N.eqb_spec c 304) as [->|H304].
  { apply elem_of_cons in Hd as [->|Hd]; [split; [done|reflexivity]|].
    apply list_elem_of_singleton in Hd as ->. split; [done|reflexivity]. }
  destruct ((913 <=? c)%N && (c <=? 939)%N && negb (c =? 930)%N) eqn:Hg;
    apply list_elem_of_singleton in Hd as ->.
  - apply andb_prop in Hg as [[Hlo%N.leb_le Hhi%N.leb_le]%andb_prop _].
    apply Hid; lia.
  - destruct (N.leb_spec 913 c), (N.leb_spec c 939);
      [|apply Hid; lia..].
    cbn in Hg. apply negb_false_iff, N.eqb_eq in Hg. subst c.
    split; [done|reflexivity].
Qed.

Lemma sample_tables_space : Unicode.space_uncased Unicode.sample_tables.
Proof. split; reflexivity. Qed.

Example sample_name_lower :
  Unicode.lower Unicode.sample_tables Unicode.sample_name
  = [105; 775; 115; 116; 97; 110; 98; 117; 108; 32; 959; 948; 959; 962]%N.
Proof. reflexivity. Qed.

(** The capital sigma in its contexts: final after a cased code point,
    also across an apostrophe; not final when a cased one follows, or when
    none precedes. *)
Example sigma_contexts :
  Unicode.lower Unicode.sample_tables [65; 39; 931]%N = [97; 39; 962]%N ∧
  Unicode.lower Unicode.sample_tables [97; 931; 46; 98]%N
  = [97; 963; 46; 98]%N ∧
  Unicode.lower Unicode.sample_tables [931]%N = [963]%N ∧
  Unicode.lower Unicode.sample_tables [97; 931; 32; 931]%N
  = [97; 962; 32; 963]%N.
Proof. repeat split. Qed.

Example sample_name_normalized :
  Unicode.normalize_part_id Unicode.sample_tables Unicode.sample_name
  = [105; 115; 116; 97; 110; 98; 117; 108; 95; 959; 948; 959; 962]%N.
Proof. reflexivity. Qed.

(** ** The identifier of any name *)

(** C9: [normalize_part_id] is idempotent on every string, a string being
    any list of code points.  The Unicode tables enter through one law:
    the code points of a lowercase mapping are their own lower case. *)
Theorem unicode_normalize_idempotent (T : Unicode.Tables) (name : list N) :
  Unicode.lowercase_stable T →
  Unicode.normalize_part_id T (Unicode.normalize_part_id T name)
  = Unicode.normalize_part_id T name.
Proof.
  intros HT.
  assert (Forall (Unicode.stable T) (Unicode.normalize_part_id T name)) as Hs.
  { apply normalize_Forall; [apply stable_underscore|].
    by apply lower_from_stable. }
  pose proof (normalize_word T name) as Hw.
  unfold Unicode.normalize_part_id at 1; cbv zeta.
  unfold Unicode.lower. rewrite (lower_from_fixed T _ [] Hs).
  rewrite (remove_special_fixed T _ Hw), (collapse_fixed T _ Hw).
  unfold Unicode.normalize_part_id; cbv zeta. apply strip_strip.
Qed.

Lemma unicode_normalize_idempotent_witness :
  Unicode.lowercase_stable Unicode.sample_tables ∧
  Unicode.normalize_part_id Unicode.sample_tables
    (Unicode.normalize_part_id Unicode.sample_tables Unicode.sample_name)
  = Unicode.normalize_part_id Unicode.sample_tables Unicode.sample_name.
Proof.
  split; [exact sample_tables_stable|].
  apply (unicode_normalize_idempotent Unicode.sample_tables
           Unicode.sample_name sample_tables_stable).
Defined.

(** X1: every code point of a part identifier is a word character, is no
    whitespace and no hyphen, and is its own lower case, so that the
    identifier as a whole is its own lower case; and the identifier neither
    begins nor ends with an underscore.  This holds of every name. *)
Theorem unicode_identifier_shape (T : Unicode.Tables) (name : list N) :
  Unicode.lowercase_stable T →
  Forall (λ d, Unicode.re_word T d = true ∧
               Unicode.separator T d = false ∧
               Unicode.lower T [d] = [d])
         (Unicode.normalize_part_id T name) ∧
  Unicode.lower T (Unicode.normalize_part_id T name)
  = Unicode.normalize_part_id T name ∧
  head (Unicode.normalize_part_id T name) ≠ Some Unicode.underscore ∧
  last (Unicode.normalize_part_id T name) ≠ Some Unicode.underscore.
Proof.
  intros HT.
  assert (Forall (Unicode.stable T) (Unicode.normalize_part_id T name)) as Hs.
  { apply normalize_Forall; [apply stable_underscore|].
    by apply lower_from_stable. }
  split; [|split; [|split]].
  - pose proof (normalize_word T name) as Hw.
    rewrite Forall_forall in Hs, Hw. apply Forall_forall. intros d Hd.
    destruct (Hw d Hd) as [Hword Hsep]. repeat split; [done..|].
    apply lower_from_fixed. constructor; [by apply Hs|constructor].
  - by apply lower_from_fixed.
  - apply rstrip_head, lstrip_head.
  - apply rstrip_last.
Qed.

Lemma unicode_identifier_shape_witness :
  Unicode.lowercase_stable Unicode.sample_tables ∧
  Forall (λ d, Unicode.re_word Unicode.sample_tables d = true ∧
               Unicode.separator Unicode.sample_tables d = false ∧
               Unicode.lower Unicode.sample_tables [d] = [d])
         (Unicode.normalize_part_id Unicode.sample_tables Unicode.sample_name) ∧
  Unicode.lower Unicode.sample_tables
    (Unicode.normalize_part_id Unicode.sample_tables Unicode.sample_name)
  = Unicode.normalize_part_id Unicode.sample_tables Unicode.sample_name ∧
  head (Unicode.normalize_part_id Unicode.sample_tables Unicode.sample_name)
  ≠ Some Unicode.underscore ∧
  last (Unicode.normalize_part_id Unicode.sample_tables Unicode.sample_name)
  ≠ Some Unicode.underscore.
Proof.
  split; [exact sample_tables_stable|].
  apply (unicode_identifier_shape Unicode.sample_tables Unicode.sample_name
           sample_tables_stable).
Defined.


Example empty_identifiers :
  Unicode.normalize_part_id Unicode.sample_tables [] = [] ∧
  Unicode.normalize_part_id Unicode.sample_tables
    (Unicode.codes "-- ... __ !?") = [] ∧
  Unicode.normalize_part_id Unicode.sample_tables [12288; 8212; 95]%N = [].
Proof. repeat split. Qed.

(** X3: the identifier does not depend on the case of the name: a name
    and its lower case get the same identifier, whatever the name. *)
Theorem unicode_normalize_ignores_case (T : Unicode.Tables) (name : list N) :
  Unicode.lowercase_stable T →
  Unicode.normalize_part_id T (Unicode.lower T name)
  = Unicode.normalize_part_id T name.
Proof.
  intros HT. unfold Unicode.normalize_part_id. by rewrite lower_lower.
Qed.

Lemma unicode_normalize_ignores_case_witness :
  Unicode.lowercase_stable Unicode.sample_tables ∧
  Unicode.normalize_part_id Unicode.sample_tables
    (Unicode.lower Unicode.sample_tables Unicode.sample_name)
  = Unicode.normalize_part_id Unicode.sample_tables Unicode.sample_name.
Proof.
  split; [exact sample_tables_stable|].
  apply (unicode_normalize_ignores_case Unicode.sample_tables
           Unicode.sample_name sample_tables_stable).
Defined.

(** ** Classification of any pair of names *)

Section UnicodeClassify.

Import Unicode.

Variable T : Tables.

Lemma prefix_app (kw s t : list N) :
  prefix kw s = true → prefix kw (s ++ t) = true.
Proof.
  revert s. induction kw as [|k kw IH]; intros s; [by destruct s|].
  destruct s as [|c s]; [done|]. cbn [prefix app].
  intros [Hk Hp]%andb_prop. by rewrite Hk, (IH _ Hp).
Qed.

Lemma contains_app_l (kw s t : list N) :
  contains kw s = true → contains kw (s ++ t) = true.
Proof.
  induction s as [|c s IH].
  - cbn [contains]. rewrite orb_false_r. intros H.
    destruct kw; [by destruct t|done].
  - cbn [contains app]. intros [H|H]%orb_prop.
    + pose proof (prefix_app _ (c :: s) t H) as Hp. cbn [app] in Hp.
      by rewrite Hp.
    + rewrite (IH H). apply orb_true_r.
Qed.

Lemma contains_app_r (kw s t : list N) :
  contains kw t = true → contains kw (s ++ t) = true.
Proof.
  intros H. induction s as [|c s IH]; [exact H|].
  cbn [contains app]. rewrite IH. apply orb_true_r.
Qed.

Lemma any_in_mono (kws : list string) (s t : list N) :
  (∀ kw, contains kw s = true → contains kw t = true) →
  any_in kws s = true → any_in kws t = true.
Proof.
  intros Hst (kw & Hin & Hkw)%existsb_exists.
  apply existsb_exists. exists kw. split; [done|]. by apply Hst.
Qed.

Hypothesis tables_space : space_uncased T.

(** A space ends the scans around a capital sigma as the end of the
    string does. *)
Lemma scan_app_space (l x : list N) :
  scan T (l ++ space :: x)
  = match scan T l with
    | Some c => Some c
    | None => Some space
    end.
Proof.
  destruct tables_space as [_ Hi]. unfold scan.
  induction l as [|c l IH]; cbn [app List.find].
  - by rewrite Hi.
  - destruct (negb (is_case_ignorable T c)); [done|exact IH].
Qed.

Lemma final_sigma_after (before after x : list N) :
  final_sigma T before (after ++ space :: x) = final_sigma T before after.
Proof.
  destruct tables_space as [Hc _]. unfold final_sigma.
  rewrite scan_app_space. destruct (scan T after); [done|]. by rewrite Hc.
Qed.

Lemma final_sigma_before (before after x : list N) :
  final_sigma T (before ++ space :: x) after = final_sigma T before after.
Proof.
  destruct tables_space as [Hc _]. unfold final_sigma.
  rewrite scan_app_space. destruct (scan T before); [done|]. by rewrite Hc.
Qed.

Lemma lower_from_before_space (s before x : list N) :
  lower_from T (before ++ space :: x) s = lower_from T before s.
Proof.
  revert before. induction s as [|c s IH]; intros before; [done|].
  cbn [lower_from]. unfold lower_at. rewrite final_sigma_before.
  f_equal. apply (IH (c :: before)).
Qed.

Lemma lower_from_app_space (s before t : list N) :
  lower_from T before (s ++ space :: t)
  = lower_from T before s ++ space :: lower_from T [] t.
Proof.
  revert before. induction s as [|c s IH]; intros before.
  - cbn [app lower_from].
    rewrite (stable_lower_at T space _ _ (stable_space T)). cbn [app].
    f_equal. apply (lower_from_before_space t [] before).
  - cbn [app lower_from]. unfold lower_at. rewrite final_sigma_after.
    by rewrite IH, <- app_assoc.
Qed.

(** Lowering the combined text is lowering the two names. *)
Lemma combined_lower_split (c o : list N) :
  combined_lower T c o = lower T c ++ space :: lower T o.
Proof. apply lower_from_app_space. Qed.

Lemma any_in_combined (kws : list string) (c o : list N) :
  any_in kws (lower T c) = true ∨ any_in kws (lower T o) = true →
  any_in kws (combined_lower T c o) = true.
Proof.
  rewrite combined_lower_split. intros [H|H].
  - revert H. apply any_in_mono. intros kw. apply contains_app_l.
  - revert H. apply any_in_mono. intros kw Hkw.
    apply contains_app_r. cbn [contains]. rewrite Hkw. apply orb_true_r.
Qed.

End UnicodeClassify.

(** X4: the classification does not depend on the case of the two names,
    whatever the names. *)
Theorem unicode_determine_system_ignores_case (T : Unicode.Tables)
    (collection_name object_name : list N) :
  Unicode.lowercase_stable T →
  Unicode.space_uncased T →
  Unicode.determine_system T (Unicode.lower T collection_name)
                             (Unicode.lower T object_name)
  = Unicode.determine_system T collection_name object_name.
Proof.
  intros Hst Hsp. unfold Unicode.determine_system.
  by rewrite !(combined_lower_split T Hsp), !(lower_lower T Hst).
Qed.

Lemma unicode_determine_system_ignores_case_witness :
  Unicode.lowercase_stable Unicode.sample_tables ∧
  Unicode.space_uncased Unicode.sample_tables ∧
  Unicode.determine_system Unicode.sample_tables
    (Unicode.lower Unicode.sample_tables (Unicode.codes "4: MUSCULAR System"))
    (Unicode.lower Unicode.sample_tables Unicode.sample_name)
  = Unicode.determine_system Unicode.sample_tables
      (Unicode.codes "4: MUSCULAR System") Unicode.sample_name.
Proof.
  split; [exact sample_tables_stable|]. split; [exact sample_tables_space|].
  apply (unicode_determine_system_ignores_case Unicode.sample_tables _ _
           sample_tables_stable sample_tables_space).
Defined.

(** X5: a skeletal keyword in the lowercased collection name or in the
    lowercased object name alone makes the pair SKELETAL, whatever the
    other name is. *)
Theorem unicode_skeletal_keyword_in_either_name (T : Unicode.Tables)
    (collection_name object_name : list N) :
  Unicode.space_uncased T →
  Unicode.any_in kw_skeletal (Unicode.lower T collection_name) = true
  ∨ Unicode.any_in kw_skeletal (Unicode.lower T object_name) = true →
  Unicode.determine_system T collection_name object_name = "SKELETAL".
Proof.
  intros Hsp H. unfold Unicode.determine_system; cbv zeta.
  by rewrite (any_in_combined T Hsp kw_skeletal _ _ H).
Qed.

Lemma unicode_skeletal_keyword_witness :
  Unicode.space_uncased Unicode.sample_tables ∧
  (Unicode.any_in kw_skeletal
     (Unicode.lower Unicode.sample_tables Unicode.sample_name) = true
   ∨ Unicode.any_in kw_skeletal
       (Unicode.lower Unicode.sample_tables (Unicode.codes "Rib cage")) = true) ∧
  Unicode.determine_system Unicode.sample_tables
    Unicode.sample_name (Unicode.codes "Rib cage") = "SKELETAL".
Proof.
  split; [exact sample_tables_space|]. split; [right; reflexivity|].
  apply (unicode_skeletal_keyword_in_either_name Unicode.sample_tables _ _
           sample_tables_space).
  right. reflexivity.
Defined.

(** ** The two embeddings agree below U+0100 *)

Section Agreement.

Variable T : Unicode.Tables.

Ltac by_cases_on a :=
  destruct a as [[] [] [] [] [] [] [] []]; reflexivity.

Lemma codes_app (s t : string) :
  Unicode.codes (s +:+ t) = Unicode.codes s ++ Unicode.codes t.
Proof.
  induction s as [|a s IH]; [done|].
  change (String a s +:+ t) with (String a (s +:+ t)).
  cbn [Unicode.codes app]. by rewrite IH.
Qed.

Lemma code_inj (a b : ascii) : Char.code a = Char.code b → a = b.
Proof.
  intros H. rewrite <- (ascii_of_code a), <- (ascii_of_code b). by rewrite H.
Qed.

Lemma codes_inj (s t : string) : Unicode.codes s = Unicode.codes t → s = t.
Proof.
  revert t. induction s as [|a s IH]; intros [|b t]; try done.
  cbn [Unicode.codes]. intros [= Hab Hst].
  by rewrite (code_inj _ _ Hab), (IH _ Hst).
Qed.

Lemma code_is_hyphen (a : ascii) :
  (Char.code a =? Unicode.hyphen)%N = Char.is_hyphen a.
Proof. by_cases_on a. Qed.

Lemma code_is_underscore (a : ascii) :
  (Char.code a =? Unicode.underscore)%N = Char.is_underscore a.
Proof. by_cases_on a. Qed.

Lemma re_word_code (a : ascii) :
  Unicode.re_word T (Char.code a) = Char.re_word a.
Proof. unfold Unicode.re_word. by rewrite latin1_code, ascii_of_code. Qed.

Lemma re_space_code (a : ascii) :
  Unicode.re_space T (Char.code a) = Char.re_space a.
Proof. unfold Unicode.re_space. by rewrite latin1_code, ascii_of_code. Qed.

Lemma kept_code (a : ascii) : Unicode.kept T (Char.code a) = Str.kept a.
Proof.
  unfold Unicode.kept, Str.kept.
  by rewrite re_word_code, re_space_code, code_is_hyphen.
Qed.

Lemma separator_code (a : ascii) :
  Unicode.separator T (Char.code a) = Str.separator a.
Proof.
  unfold Unicode.separator, Str.separator.
  by rewrite re_space_code, code_is_hyphen.
Qed.

Lemma lower_from_codes (s : string) (before : list N) :
  Unicode.lower_from T before (Unicode.codes s) = Unicode.codes (Str.lower s).
Proof.
  revert before. induction s as [|a s IH]; intros before; [done|].
  cbn [Unicode.codes Unicode.lower_from Str.lower]. unfold Unicode.lower_at.
  by rewrite not_sigma_code, lower_one_code, IH.
Qed.

Lemma remove_special_codes (s : string) :
  Unicode.remove_special T (Unicode.codes s) = Unicode.codes (Str.remove_special s).
Proof.
  induction s as [|a s IH]; [done|].
  cbn [Unicode.codes Unicode.remove_special Str.remove_special].
  rewrite kept_code, IH.
  by destruct (Str.kept a).
Qed.

Lemma collapse_from_codes (in_run : bool) (s : string) :
  Unicode.collapse_from T in_run (Unicode.codes s) = Unicode.codes (Str.collapse_from in_run s).
Proof.
  revert in_run. induction s as [|a s IH]; intros in_run; [done|].
  cbn [Unicode.codes Unicode.collapse_from Str.collapse_from].
  rewrite separator_code, !IH.
  by destruct (Str.separator a), in_run.
Qed.

Lemma lstrip_codes (s : string) :
  Unicode.lstrip_underscore (Unicode.codes s) = Unicode.codes (Str.lstrip_underscore s).
Proof.
  induction s as [|a s IH]; [done|].
  cbn [Unicode.codes Unicode.lstrip_underscore Str.lstrip_underscore].
  rewrite code_is_underscore, IH. by destruct (Char.is_underscore a).
Qed.

Lemma rstrip_codes (s : string) :
  Unicode.rstrip_underscore (Unicode.codes s) = Unicode.codes (Str.rstrip_underscore s).
Proof.
  induction s as [|a s IH]; [done|].
  cbn [Unicode.codes Unicode.rstrip_underscore Str.rstrip_underscore].
  rewrite code_is_underscore, IH.
  destruct (Str.rstrip_underscore s); [|done].
  by destruct (Char.is_underscore a).
Qed.

(** On a name below U+0100 the identifier is the one of the first
    embedding, whatever the tables are. *)
Lemma normalize_part_id_codes (name : string) :
  Unicode.normalize_part_id T (Unicode.codes name) = Unicode.codes (normalize_part_id name).
Proof.
  unfold Unicode.normalize_part_id, normalize_part_id, Unicode.lower,
    Unicode.collapse_separators, Str.collapse_separators,
    Unicode.strip_underscore, Str.strip_underscore; cbv zeta.
  by rewrite lower_from_codes, remove_special_codes, collapse_from_codes,
    lstrip_codes, rstrip_codes.
Qed.

Lemma prefix_codes (kw s : string) :
  Unicode.prefix (Unicode.codes kw) (Unicode.codes s) = String.prefix kw s.
Proof.
  revert kw. induction s as [|b s IH]; intros [|a kw]; try done.
  cbn [Unicode.codes Unicode.prefix String.prefix].
  destruct (ascii_dec a b) as [->|Hab].
  - by rewrite N.eqb_refl, IH.
  - rewrite (proj2 (N.eqb_neq _ _)); [done|].
    intros H. by apply Hab, code_inj.
Qed.

Lemma contains_codes (kw s : string) :
  Unicode.contains (Unicode.codes kw) (Unicode.codes s) = Str.contains kw s.
Proof.
  induction s as [|b s IH].
  - cbn [Unicode.codes Unicode.contains Str.contains].
    by rewrite <- (prefix_codes kw "").
  - cbn [Unicode.codes Unicode.contains Str.contains].
    by rewrite <- (prefix_codes kw (String b s)), IH.
Qed.

Lemma any_in_codes (kws : list string) (s : string) :
  Unicode.any_in kws (Unicode.codes s) = any_in kws s.
Proof.
  unfold Unicode.any_in, any_in.
  induction kws as [|kw kws IH]; [done|].
  cbn [existsb]. by rewrite contains_codes, IH.
Qed.

(** On names below U+0100 the classification is the one of the first
    embedding. *)
Lemma determine_system_codes (collection_name object_name : string) :
  Unicode.determine_system T (Unicode.codes collection_name) (Unicode.codes object_name)
  = determine_system collection_name object_name.
Proof.
  unfold Unicode.determine_system, determine_system; cbv zeta.
  assert (Unicode.combined_lower T (Unicode.codes collection_name) (Unicode.codes object_name)
          = Unicode.codes (combined_lower collection_name object_name)) as ->.
  { unfold Unicode.combined_lower, combined_lower, Unicode.lower.
    rewrite <- lower_from_codes with (before := []).
    by rewrite !codes_app. }
  by rewrite !any_in_codes.
Qed.

End Agreement.
